(** * leflon/qr: bit buffer, GF(2^8) arithmetic and alphanumeric encoding

    A shallow embedding of [src/BitBuffer.ts], of the [GaloisField] class and
    of the encoding functions ([encode], [getCharacterCountIndicatorSize],
    [encodeAlphanumeric]), followed by the properties of the specification
    that concern them.

    Conventions.
    - A JavaScript number that the program only ever uses as an integer is a
      [Z]; sums and quotients are exact, as they are in the program on the
      numbers it meets (below 2^53), and the one product the program forms
      of an argument that can be large, in [power], is rounded to a double.
    - A [Uint8Array] is a [list Z] of bytes. A read out of range yields
      [undefined], a write out of range is dropped, a stored value is
      reduced modulo 256.
    - A [throw new Error(...)] is a [Throw] result; one constructor of
      [Error] per message. *)

From Stdlib Require Import ZArith Lia Bool Ascii String.
From stdpp Require Import base numbers list strings gmap pretty.

Local Open Scope Z_scope.

(* ===================================================================== *)
(** ** types.ts *)

(** [Version] is the union type 1 | 2 | ... | 40; at run time it is a
    number, and the functions below compare it as one. *)
Definition Version := Z.

(** 'L' | 'M' | 'Q' | 'H'; the letters live in a module of their own, to
    be written [Level.M]. *)
Module Level.
Inductive ErrorCorrectionLevel := L | M | Q | H.
End Level.
Definition ErrorCorrectionLevel := Level.ErrorCorrectionLevel.

(** [QRCodeType] is the template type `${Version}${ErrorCorrectionLevel}`. *)
Record QRCodeType := { qrVersion : Version; qrLevel : ErrorCorrectionLevel }.

Inductive EncodingMode := numeric | alphanumeric | byte | kanji.

(* ===================================================================== *)
(** ** Exceptions *)

Inductive Error :=
| DivisionByZero                                 (* 'Division by zero' *)
| UnsupportedMode (mode : EncodingMode)          (* 'Unsupported encoding mode: ...' *)
| UnknownVersion (version : Z)                   (* 'Unknown version: ...' *)
| UnsupportedVersion (version : Z)               (* 'Unsupported version: ...' *)
| UnsupportedErrorCorrectionLevel (l : ErrorCorrectionLevel)
| NonAlphanumericCharacter (c : string).         (* 'Non-alphanumeric character: ...' *)

Inductive Result (A : Type) :=
| Ok (a : A)
| Throw (e : Error).
Arguments Ok {A} a.
Arguments Throw {A} e.

Definition bind {A B} (r : Result A) (k : A -> Result B) : Result B :=
  match r with
  | Ok a => k a
  | Throw e => Throw e
  end.

Notation "x <-! r ; k" := (bind r (fun x => k))
  (at level 100, r at next level, right associativity, only parsing).

Definition isOk {A} (r : Result A) : bool :=
  match r with Ok _ => true | Throw _ => false end.

(* ===================================================================== *)
(** ** JavaScript integer operators *)

Module Js.

(** ToInt32 on an integer-valued number. *)
Definition ToInt32 (x : Z) : Z := (x + 2 ^ 31) mod 2 ^ 32 - 2 ^ 31.

(** [x << s]: the count is taken modulo 32, the result wraps to int32. *)
Definition shl (x s : Z) : Z := ToInt32 (Z.shiftl (ToInt32 x) (s mod 32)).

(** [x | y], [x ^ y], [x & y] on int32 operands. *)
Definition or (x y : Z) : Z := Z.lor (ToInt32 x) (ToInt32 y).
Definition xor (x y : Z) : Z := Z.lxor (ToInt32 x) (ToInt32 y).
Definition and (x y : Z) : Z := Z.land (ToInt32 x) (ToInt32 y).

(** [Math.ceil(n / 8)] for an integer [n]. *)
Definition ceilDiv8 (n : Z) : Z := (n + 7) / 8.

(** The values a table cell or an arithmetic result can take in
    [GaloisField]: an integer, an infinity, NaN, or [undefined] (a hole of
    [new Array(n)] or an index that is not a property). *)
Inductive Value :=
| Num (z : Z)
| NegInfinity
| PosInfinity
| NaN
| Undefined.

Definition neg (a : Value) : Value :=
  match a with
  | Num x => Num (- x)
  | NegInfinity => PosInfinity
  | PosInfinity => NegInfinity
  | NaN | Undefined => NaN
  end.

Definition add (a b : Value) : Value :=
  match a, b with
  | Num x, Num y => Num (x + y)
  | (NaN | Undefined), _ | _, (NaN | Undefined) => NaN
  | NegInfinity, PosInfinity | PosInfinity, NegInfinity => NaN
  | NegInfinity, _ | _, NegInfinity => NegInfinity
  | PosInfinity, _ | _, PosInfinity => PosInfinity
  end.

Definition sub (a b : Value) : Value := add a (neg b).

Definition infinity (positive : bool) : Value :=
  if positive then PosInfinity else NegInfinity.

(** The double nearest to an integer [z], ties to even: the integer itself
    below 2^53, else the multiple of [2^e] nearest to it, where [e] leaves a
    53-bit significand, and an infinity from 2^1024 on. *)
Definition double (z : Z) : Value :=
  let a := Z.abs z in
  if a <? 2 ^ 53 then Num z
  else
    let e := Z.log2 a - 52 in
    let q := a / 2 ^ e in
    let r := a mod 2 ^ e in
    let half := 2 ^ (e - 1) in
    let q' := if (half <? r) || ((r =? half) && Z.odd q) then q + 1 else q in
    let m := q' * 2 ^ e in
    if 2 ^ 1024 <=? m then infinity (0 <? z) else Num (Z.sgn z * m).

(** [a * b]; the product of two integers is rounded to a double. *)
Definition mul (a b : Value) : Value :=
  match a, b with
  | Num x, Num y => double (x * y)
  | (NaN | Undefined), _ | _, (NaN | Undefined) => NaN
  | NegInfinity, Num y | Num y, NegInfinity =>
      if y =? 0 then NaN else infinity (y <? 0)
  | PosInfinity, Num y | Num y, PosInfinity =>
      if y =? 0 then NaN else infinity (0 <? y)
  | NegInfinity, NegInfinity | PosInfinity, PosInfinity => PosInfinity
  | NegInfinity, PosInfinity | PosInfinity, NegInfinity => NegInfinity
  end.

(** [a % b]: the remainder has the sign of the dividend. *)
Definition rem (a b : Value) : Value :=
  match a, b with
  | Num x, Num y => if y =? 0 then NaN else Num (Z.rem x y)
  | Num x, (NegInfinity | PosInfinity) => Num x
  | _, _ => NaN
  end.

(** [table[k]] on an array. *)
Definition index (table : list Value) (k : Value) : Value :=
  match k with
  | Num z => if 0 <=? z then default Undefined (table !! Z.to_nat z) else Undefined
  | _ => Undefined
  end.

(** [table[k] = v] for an index that lies inside the array. *)
Definition store (table : list Value) (k : Z) (v : Value) : list Value :=
  <[Z.to_nat k := v]> table.

End Js.

(* ===================================================================== *)
(** ** class GaloisField *)

Module GaloisField.
Import Js.

Definition IRREDUCIBLE_POLYNOMIAL : Z := 0x11D.   (* 0b100011101 *)

Record Tables := { expTable : list Value; logTable : list Value }.

(** The body of [for (let i = 0; i < 255; i++)], run for the [n]
    remaining iterations from counter [i] and generator power [x]. Both
    indices stay inside their arrays ([i < 255], [x < 256]). *)
Fixpoint initLoop (n : nat) (i x : Z) (t : Tables) : Tables :=
  match n with
  | O => t
  | S n' =>
      let t' := {| expTable := store (expTable t) i (Num x);
                   logTable := store (logTable t) x (Num i) |} in
      let x1 := shl x 1 in
      let x2 := if 256 <=? x1 then xor x1 IRREDUCIBLE_POLYNOMIAL else x1 in
      initLoop n' (i + 1) x2 t'
  end.

(** The static initialisation block. *)
Definition initTables : Tables :=
  let t := initLoop 255 0 1 {| expTable := replicate 512 Undefined;
                               logTable := replicate 256 Undefined |} in
  {| expTable := store (expTable t) 255 (index (expTable t) (Num 0));
     logTable := store (logTable t) 0 NegInfinity |}.

(** The tables as the class holds them once the block has run: the value
    of [initTables] (see [tables_init]). *)
Definition tables : Tables := Eval vm_compute in initTables.

Definition add (a b : Z) : Z := xor a b.

Definition subtract (a b : Z) : Z := xor a b.

Definition multiply (a b : Z) : Value :=
  if (a =? 0) || (b =? 0) then Num 0
  else
    let logA := index (logTable tables) (Num a) in
    let logB := index (logTable tables) (Num b) in
    let logResult := rem (Js.add logA logB) (Num 255) in
    index (expTable tables) logResult.

Definition divide (a b : Z) : Result Value :=
  if a =? 0 then Ok (Num 0)
  else if b =? 0 then Throw DivisionByZero
  else
    let logA := index (logTable tables) (Num a) in
    let logB := index (logTable tables) (Num b) in
    let logResult := rem (Js.add (sub logA logB) (Num 255)) (Num 255) in
    Ok (index (expTable tables) logResult).

(** [logTable[x] * power] is a product of doubles, hence rounded ([Js.mul]);
    the remainder and the table read are exact. *)
Definition power (x power : Z) : Value :=
  index (expTable tables) (rem (mul (index (logTable tables) (Num x)) (Num power)) (Num 255)).

(** A field element: a number in [0,255]. *)
Definition isFieldElement (v : Value) : bool :=
  match v with
  | Num z => (0 <=? z) && (z <=? 255)
  | _ => false
  end.

End GaloisField.

(* ===================================================================== *)
(** ** constants.ts *)

(** Modelled from the spec: [PAD_CODEWORDS] of constants.ts, which is not
    among the sources; "the fixed two-byte pad pattern {0xEC, 0x11}". *)
Definition PAD_CODEWORDS : list Z := [0xEC; 0x11].

(** Modelled from the spec: [MODE_INDICATOR.ALPHANUMERIC] of constants.ts;
    "the fixed 4-bit pattern 0010". *)
Definition MODE_INDICATOR_ALPHANUMERIC : Z := 2.

(** Modelled from the spec: [DATA_CODEWORDS_BY_TYPE] of constants.ts, "the
    number of data codewords available for that symbol configuration". Only
    the key '1M' is ever read; its value, 16, is the capacity the test of
    [encodeAlphanumeric] allocates for the expected buffer. *)
Definition DATA_CODEWORDS_BY_TYPE (version : Version) (level : ErrorCorrectionLevel) : Z :=
  16.

(** Modelled from the spec: [ALPHANUMERIC_ENCODING_TABLE] of constants.ts; "a
    fixed mapping from 45 permitted symbols (0-9, A-Z, space, and
    $ % * + - . / :) to integer values 0..44", in that order. *)
Definition alphabet : list string :=
  ["0"; "1"; "2"; "3"; "4"; "5"; "6"; "7"; "8"; "9";
   "A"; "B"; "C"; "D"; "E"; "F"; "G"; "H"; "I"; "J"; "K"; "L"; "M";
   "N"; "O"; "P"; "Q"; "R"; "S"; "T"; "U"; "V"; "W"; "X"; "Y"; "Z";
   " "; "$"; "%"; "*"; "+"; "-"; "."; "/"; ":"]%string.

Definition ALPHANUMERIC_ENCODING_TABLE : gmap string Z :=
  list_to_map (zip alphabet (Z.of_nat <$> seq 0 45)).

(* ===================================================================== *)
(** ** class BitBuffer *)

Module BitBuffer.

Record BitBuffer := {
  buffer : list Z;       (* the Uint8Array *)
  bytePointer : Z;
  bitPointer : Z
}.

(** [new Uint8Array(n)] is zero-filled. *)
Definition Uint8Array (n : Z) : list Z := replicate (Z.to_nat n) 0.

(** Reading [a[i]] from a typed array. *)
Definition get (a : list Z) (i : Z) : option Z :=
  if 0 <=? i then a !! Z.to_nat i else None.

(** Writing [a[i] = v] to a typed array. *)
Definition set (a : list Z) (i v : Z) : list Z :=
  if 0 <=? i then <[Z.to_nat i := v mod 256]> a else a.

Definition new (initialSize : Z) : BitBuffer :=
  {| buffer := Uint8Array initialSize; bytePointer := 0; bitPointer := 0 |}.

Definition length (b : BitBuffer) : Z := Z.of_nat (List.length (buffer b)).

Definition ensureCapacity (bitsToAdd : Z) (b : BitBuffer) : BitBuffer :=
  let requiredCapacity := bytePointer b + Js.ceilDiv8 bitsToAdd in
  if length b <? requiredCapacity then
    (* newBuffer.set(this.buffer) on a fresh zero-filled array *)
    let newBuffer := buffer b ++ Uint8Array (requiredCapacity - length b) in
    {| buffer := newBuffer; bytePointer := bytePointer b; bitPointer := bitPointer b |}
  else b.

(** [value.toString(2).length]; a negative value prints its sign. *)
Definition binaryDigits (value : Z) : Z :=
  if value <? 0 then 1 + (Z.log2 (- value) + 1) else Z.log2 value + 1.

(** One turn of the [for] loop of [appendBits], at index [i]. *)
Definition writeBit (value i : Z) (b : BitBuffer) : BitBuffer :=
  let bit := Js.and (value / 2 ^ i) 1 in
  let old := default 0 (get (buffer b) (bytePointer b)) in
  let buffer' := set (buffer b) (bytePointer b) (Js.or old (Js.shl bit (7 - bitPointer b))) in
  let bitPointer' := bitPointer b + 1 in
  if bitPointer' =? 8 then
    {| buffer := buffer'; bytePointer := bytePointer b + 1; bitPointer := 0 |}
  else
    {| buffer := buffer'; bytePointer := bytePointer b; bitPointer := bitPointer' |}.

(** [for (let i = n - 1; i >= 0; i--)]. *)
Fixpoint appendLoop (value : Z) (n : nat) (b : BitBuffer) : BitBuffer :=
  match n with
  | O => b
  | S i => appendLoop value i (writeBit value (Z.of_nat i) b)
  end.

(** [appendBits(value, length?)]; [None] is an omitted argument. *)
Definition appendBits (value : Z) (length : option Z) (b : BitBuffer) : BitBuffer :=
  let realLength := if value =? 0 then 1 else binaryDigits value in
  let length :=
    match length with
    | None => realLength
    | Some l => if l =? 0 then realLength else l
    end in
  let b := ensureCapacity length b in
  let padding := length - realLength in
  let bitPointer' := bitPointer b + padding in
  let b :=
    if 8 <=? bitPointer' then
      {| buffer := buffer b;
         bytePointer := bytePointer b + bitPointer' / 8;
         bitPointer := Z.rem bitPointer' 8 |}
    else
      {| buffer := buffer b; bytePointer := bytePointer b; bitPointer := bitPointer' |} in
  appendLoop value (Z.to_nat realLength) b.

Definition padByte (b : BitBuffer) : BitBuffer :=
  if 0 <? bitPointer b then
    {| buffer := buffer b; bytePointer := bytePointer b + 1; bitPointer := 0 |}
  else b.

(** The [while] loop of [fill], for at most [n] turns, with pad index [i]. *)
Fixpoint fillLoop (n : nat) (i : Z) (b : BitBuffer) : BitBuffer :=
  match n with
  | O => b
  | S n' =>
      if bytePointer b <? length b then
        let codeword := default 0 (get PAD_CODEWORDS i) in
        fillLoop n' (Z.rem (i + 1) 2)
          {| buffer := set (buffer b) (bytePointer b) codeword;
             bytePointer := bytePointer b + 1;
             bitPointer := bitPointer b |}
      else b
  end.

(** Each turn moves [bytePointer] one step towards [length], so
    [length - bytePointer] turns are enough (see [fillLoop_exits]). *)
Definition fill (b : BitBuffer) : BitBuffer :=
  let b := padByte b in
  fillLoop (Z.to_nat (length b - bytePointer b)) 0 b.

(** [slice(0, totalBytes)] for a cursor that is not negative. *)
Definition toArray (b : BitBuffer) : list Z :=
  let totalBytes := bytePointer b + (if 0 <? bitPointer b then 1 else 0) in
  take (Z.to_nat totalBytes) (buffer b).

(** [byte.toString(2).padStart(8, '0')] for a byte in [0,255]. *)
Definition binary8 (byte : Z) : string :=
  fold_right (fun (j : nat) s => String (if Z.testbit byte (Z.of_nat j) then "1" else "0")%char s)
    EmptyString [7; 6; 5; 4; 3; 2; 1; 0]%nat.

(** The final [trim()] removes nothing: the text has no blank at either
    end. *)
Definition toString (pretty : bool) (b : BitBuffer) : string :=
  let str :=
    fold_left (fun str byte => str +:+ binary8 byte +:+ (if pretty then " " else EmptyString))
      (buffer b) EmptyString in
  if pretty then str +:+ "(" +:+ pretty.pretty (bitPointer b) +:+ ")" else str.

End BitBuffer.

(* ===================================================================== *)
(** ** Encoding *)

Definition getCharacterCountIndicatorSize (version : Version) (encoding : EncodingMode)
  : Result Z :=
  match encoding with
  | alphanumeric =>
      if version <=? 9 then Ok 9
      else if version <=? 26 then Ok 11
      else if version <=? 40 then Ok 13
      else Throw (UnknownVersion version)
  | _ => Throw (UnsupportedMode encoding)
  end.

(** [!v] for a table entry: a missing key ([undefined]) and the number 0
    are both falsy. *)
Definition falsy (v : option Z) : bool :=
  match v with
  | None => true
  | Some z => z =? 0
  end.

Definition char (c : ascii) : string := String c EmptyString.

(** The [for (let i = 0; i < data.length; i += 2)] loop over the characters
    that remain. [next] is [undefined] past the end of the string, and so is
    the table entry read with it. *)
Fixpoint encodeGroups (data : list ascii) (encoded : BitBuffer.BitBuffer) : Result BitBuffer.BitBuffer :=
  match data with
  | [] => Ok encoded
  | curr :: rest =>
      let currValue := ALPHANUMERIC_ENCODING_TABLE !! char curr in
      if falsy currValue then Throw (NonAlphanumericCharacter (char curr))
      else
        match rest with
        | [] => Ok (BitBuffer.appendBits (default 0 currValue) (Some 6) encoded)
        | next :: rest' =>
            let nextValue := ALPHANUMERIC_ENCODING_TABLE !! char next in
            if falsy nextValue then Throw (NonAlphanumericCharacter (char next))
            else
              encodeGroups rest'
                (BitBuffer.appendBits (default 0 currValue * 45 + default 0 nextValue)
                   (Some 11) encoded)
        end
  end.

Definition encodeAlphanumeric (data : string) (version : Version)
    (errorCorrectionLevel : ErrorCorrectionLevel) : Result BitBuffer.BitBuffer :=
  if negb (version =? 1) then Throw (UnsupportedVersion version)
  else
    match errorCorrectionLevel with
    | Level.M =>
        let size := DATA_CODEWORDS_BY_TYPE version errorCorrectionLevel in
        let encoded := BitBuffer.new size in
        let encoded := BitBuffer.appendBits MODE_INDICATOR_ALPHANUMERIC (Some 4) encoded in
        cci <-! getCharacterCountIndicatorSize version alphanumeric;
        let encoded :=
          BitBuffer.appendBits (Z.of_nat (String.length data)) (Some cci) encoded in
        encoded <-! encodeGroups (list_ascii_of_string data) encoded;
        let encoded := BitBuffer.appendBits 0 (Some 4) encoded in
        Ok (BitBuffer.padByte encoded)
    | _ => Throw (UnsupportedErrorCorrectionLevel errorCorrectionLevel)
    end.

Definition encode (data : string) (mode : EncodingMode) (qrType : QRCodeType)
  : Result BitBuffer.BitBuffer :=
  match mode with
  | alphanumeric =>
      encoded <-! encodeAlphanumeric data 1 Level.M;
      Ok (BitBuffer.fill encoded)
  | _ => Throw (UnsupportedMode mode)
  end.

(* ===================================================================== *)
(** ** Notions used to state the properties *)

Import BitBuffer.

(** The position of the write cursor, in bits from the start of the
    storage. *)
Definition cursor (b : BitBuffer) : Z := 8 * bytePointer b + bitPointer b.

(** Bit [k] of the stream held by a byte array, most significant bit of
    each byte first; [false] outside the array. *)
Definition bitAt (a : list Z) (k : Z) : bool :=
  Z.testbit (default 0 (get a (k / 8))) (7 - k mod 8).

(** The cursor invariant of the data model: [0 <= bit_cursor < 8], at a
    byte index that is not negative. *)
Definition wellFormed (b : BitBuffer) : Prop :=
  0 <= bytePointer b /\ 0 <= bitPointer b < 8.

(** The minimal number of bits of a value, 1 for the value 0. *)
Definition bitWidth (value : Z) : Z := if value =? 0 then 1 else Z.log2 value + 1.

(** A stream is clean when no bit is set from its cursor on, as in a
    fresh buffer. *)
Definition clean (b : BitBuffer) : Prop :=
  forall k, cursor b <= k -> bitAt (buffer b) k = false.

(** Every element of the storage is a byte. *)
Definition bytesOk (a : list Z) : Prop := Forall (fun x => 0 <= x < 256) a.

(** The states a program builds from a new buffer by appending values that
    are not negative with a length that covers them (or with none), by
    aligning and by filling. *)
Inductive built : BitBuffer -> Prop :=
| built_new (initialSize : Z) : built (new initialSize)
| built_append (value len : Z) (b : BitBuffer) :
    built b -> 0 <= value -> bitWidth value <= len ->
    built (appendBits value (Some len) b)
| built_append_auto (value : Z) (b : BitBuffer) :
    built b -> 0 <= value -> built (appendBits value None b)
| built_padByte (b : BitBuffer) : built b -> built (padByte b)
| built_fill (b : BitBuffer) : built b -> built (fill b).

(** The bits of a byte array as text, eight digits a byte. *)
Fixpoint render (a : list Z) : string :=
  match a with
  | [] => EmptyString
  | x :: a' => binary8 x +:+ render a'
  end.

(** The index into [PAD_CODEWORDS] that the loop of [fill] holds at the
    [j]-th byte it writes. *)
Definition padIndex (j : nat) : Z := if Nat.even j then 0 else 1.

(** [n] pad codewords: 0xEC at the even places, 0x11 at the odd ones. *)
Definition padFrom (i n : nat) : list Z :=
  List.map (fun j => if Nat.even j then 0xEC else 0x11) (seq i n).

Definition padCodewords (n : nat) : list Z := padFrom 0 n.

(** Membership in the 45-symbol alphabet. *)
Definition inAlphabet (c : ascii) : bool := existsb (String.eqb (char c)) alphabet.

(** A character the encoder accepts: its table entry is truthy. *)
Definition accepted (c : ascii) : bool := negb (falsy (ALPHANUMERIC_ENCODING_TABLE !! char c)).

(** The table value of a character (0 for a character without one). *)
Definition charValue (c : ascii) : Z := default 0 (ALPHANUMERIC_ENCODING_TABLE !! char c).

(** An accepted character has a table value in [1,44]. *)
Definition acceptedRangeAt (c : ascii) : bool :=
  negb (accepted c) || ((1 <=? charValue c) && (charValue c <=? 44)).

(** The first character of a text that the encoder does not accept. *)
Definition firstRejected (data : list ascii) : option ascii :=
  List.find (fun c => negb (inAlphabet c && negb (Ascii.eqb c "0"))) data.

(** The lowest [n] bits of a value, most significant first. *)
Definition bitsOf (n : nat) (v : Z) : list bool :=
  (fun j => Z.testbit v (Z.of_nat (n - 1 - j))) <$> seq 0 n.

(** The character groups of a text: 11 bits for each pair of characters,
    6 bits for a last single one. *)
Fixpoint groupsBits (data : list ascii) : list bool :=
  match data with
  | [] => []
  | c1 :: rest =>
      match rest with
      | [] => bitsOf 6 (charValue c1)
      | c2 :: rest' => bitsOf 11 (charValue c1 * 45 + charValue c2) ++ groupsBits rest'
      end
  end.

(** The alphanumeric segment of a text for version 1: mode indicator,
    character count in 9 bits, groups, terminator. *)
Definition segmentBits (data : list ascii) : list bool :=
  bitsOf 4 MODE_INDICATOR_ALPHANUMERIC
  ++ bitsOf 9 (Z.of_nat (List.length data))
  ++ groupsBits data
  ++ bitsOf 4 0.

(** A stream holds the bits [bs]: they are its bits up to the cursor, and
    no bit is set after them. *)
Definition holds (b : BitBuffer) (bs : list bool) : Prop :=
  wellFormed b
  /\ cursor b = Z.of_nat (List.length bs)
  /\ forall k : nat, bitAt (buffer b) (Z.of_nat k) = default false (bs !! k).

(** [n] zero bits, as text. *)
Definition zeros (n : nat) : string := string_of_list_ascii (List.repeat "0"%char n).

(** The field elements, 0 to 255. *)
Definition fieldElements : list Z := List.map Z.of_nat (seq 0 256).

(** [multiply(a, divide(1, a)) == 1]. *)
Definition inverseAt (a : Z) : bool :=
  match GaloisField.divide 1 a with
  | Ok (Js.Num d) =>
      (0 <=? d) && (d <=? 255)
      && match GaloisField.multiply a d with
         | Js.Num p => p =? 1
         | _ => false
         end
  | _ => false
  end.

(** A logarithm that is a number in [0,254]. *)
Definition logAt (x : Z) : bool :=
  match Js.index (GaloisField.logTable GaloisField.tables) (Js.Num x) with
  | Js.Num l => (0 <=? l) && (l <=? 254)
  | _ => false
  end.

Definition expAt (k : Z) : bool :=
  GaloisField.isFieldElement (Js.index (GaloisField.expTable GaloisField.tables) (Js.Num k)).

(** The number held by a cell of the logarithm table, and of the exponent
    table (0 where the cell holds no number). *)
Definition logOf (x : Z) : Z :=
  match Js.index (GaloisField.logTable GaloisField.tables) (Js.Num x) with
  | Js.Num l => l
  | _ => 0
  end.

Definition expOf (i : Z) : Z :=
  match Js.index (GaloisField.expTable GaloisField.tables) (Js.Num i) with
  | Js.Num x => x
  | _ => 0
  end.

(** The step of the initialisation loop: doubling, folded back into the
    field by the irreducible polynomial. *)
Definition xtime (x : Z) : Z :=
  let x1 := Js.shl x 1 in
  if 256 <=? x1 then Js.xor x1 GaloisField.IRREDUCIBLE_POLYNOMIAL else x1.

(** The two tables are inverse to each other at [x], and at [i]. *)
Definition expLogAt (x : Z) : bool :=
  match Js.index (GaloisField.logTable GaloisField.tables) (Js.Num x) with
  | Js.Num l =>
      (0 <=? l) && (l <=? 254)
      && match Js.index (GaloisField.expTable GaloisField.tables) (Js.Num l) with
         | Js.Num y => y =? x
         | _ => false
         end
  | _ => false
  end.

Definition logExpAt (i : Z) : bool :=
  match Js.index (GaloisField.expTable GaloisField.tables) (Js.Num i) with
  | Js.Num x =>
      (1 <=? x) && (x <=? 255)
      && match Js.index (GaloisField.logTable GaloisField.tables) (Js.Num x) with
         | Js.Num j => j =? i
         | _ => false
         end
  | _ => false
  end.

(** The next power of the generator is the [xtime] of this one. *)
Definition expStepAt (i : Z) : bool := xtime (expOf i) =? expOf ((i + 1) mod 255).

(** [k] steps of [xtime]. *)
Fixpoint xtimes (k : nat) (x : Z) : Z :=
  match k with
  | O => x
  | S k' => xtime (xtimes k' x)
  end.

(** [xtime] on a field element, without the conversions to int32. *)
Definition xtimeByte (x : Z) : Z :=
  if 256 <=? 2 * x then Z.lxor (2 * x) 285 else 2 * x.

(** [xtime] keeps the field elements, where it is [xtimeByte]. *)
Definition xtimeAt (x : Z) : bool :=
  (xtime x =? xtimeByte x) && (0 <=? xtime x) && (xtime x <=? 255).

(** [xtimeByte] is additive. *)
Definition xtimeLinearAt (x y : Z) : bool :=
  xtimeByte (Z.lxor x y) =? Z.lxor (xtimeByte x) (xtimeByte y).

(* ===================================================================== *)
(** ** GaloisField *)

Section Field.
Import Js GaloisField.

(** The tables are those the initialisation loop builds. *)
Lemma tables_init : tables = initTables.
Proof. vm_compute. reflexivity. Qed.

Lemma fieldElements_complete (a : Z) : 0 <= a <= 255 -> In a fieldElements.
Proof.
  intros Ha. unfold fieldElements.
  replace a with (Z.of_nat (Z.to_nat a)) by lia.
  apply in_map, in_seq. lia.
Qed.

Lemma forall_fieldElements (P : Z -> bool) :
  forallb P fieldElements = true -> forall a, 0 <= a <= 255 -> P a = true.
Proof.
  intros Hall a Ha. rewrite forallb_forall in Hall.
  apply Hall, fieldElements_complete, Ha.
Qed.

Lemma log_everywhere : forallb (fun x => (x =? 0) || logAt x) fieldElements = true.
Proof. vm_compute. reflexivity. Qed.

Lemma exp_everywhere : forallb (fun k => (k =? 255) || expAt k) fieldElements = true.
Proof. vm_compute. reflexivity. Qed.

(** Every non-zero element has a logarithm in [0,254]. *)
Lemma log_defined (x : Z) :
  1 <= x <= 255 -> exists l, index (logTable tables) (Num x) = Num l /\ 0 <= l <= 254.
Proof.
  intros Hx.
  pose proof (forall_fieldElements _ log_everywhere x ltac:(lia)) as Hlog.
  cbv beta in Hlog.
  destruct (Z.eqb_spec x 0) as [->|_]; [lia|].
  rewrite orb_false_l in Hlog. unfold logAt in Hlog.
  destruct (index (logTable tables) (Num x)) as [l| | | |]; try discriminate.
  apply andb_prop in Hlog as [Hl0 Hl1].
  apply Z.leb_le in Hl0, Hl1.
  exists l. split; [reflexivity | lia].
Qed.

(** Every exponent in [0,254] has a power that is a field element. *)
Lemma exp_defined (k : Z) :
  0 <= k <= 254 -> isFieldElement (index (expTable tables) (Num k)) = true.
Proof.
  intros Hk.
  pose proof (forall_fieldElements _ exp_everywhere k ltac:(lia)) as Hexp.
  cbv beta in Hexp.
  destruct (Z.eqb_spec k 255) as [E|_]; [lia|].
  exact Hexp.
Qed.

Lemma ToInt32_small (x : Z) : 0 <= x < 2 ^ 31 -> ToInt32 x = x.
Proof.
  intros Hx. unfold ToInt32.
  rewrite Z.mod_small; [lia|].
  change (2 ^ 32) with (2 ^ 31 + 2 ^ 31). lia.
Qed.

Lemma xor_closed (a b : Z) :
  0 <= a <= 255 -> 0 <= b <= 255 -> 0 <= xor a b <= 255.
Proof.
  intros Ha Hb. unfold xor.
  rewrite !ToInt32_small by (change (2 ^ 31) with 2147483648; lia).
  assert (H0 : 0 <= Z.lxor a b) by (apply Z.lxor_nonneg; lia).
  split; [exact H0|].
  destruct (Z.eq_dec (Z.lxor a b) 0) as [->|Hnz]; [lia|].
  assert (Hlt : Z.lxor a b < 2 ^ 8); [|change (2 ^ 8) with 256 in Hlt; lia].
  apply Z.log2_lt_pow2; [lia|].
  pose proof (Z.log2_lxor a b ltac:(lia) ltac:(lia)) as Hmax.
  assert (Z.log2 a < 8).
  { destruct (Z.eq_dec a 0) as [->|]; [reflexivity|].
    apply Z.log2_lt_pow2; change (2 ^ 8) with 256; lia. }
  assert (Z.log2 b < 8).
  { destruct (Z.eq_dec b 0) as [->|]; [reflexivity|].
    apply Z.log2_lt_pow2; change (2 ^ 8) with 256; lia. }
  lia.
Qed.

Lemma multiply_closed (a b : Z) :
  0 <= a <= 255 -> 0 <= b <= 255 -> isFieldElement (multiply a b) = true.
Proof.
  intros Ha Hb. unfold multiply.
  destruct (Z.eqb_spec a 0) as [->|Ha0]; [reflexivity|].
  destruct (Z.eqb_spec b 0) as [->|Hb0]; [reflexivity|].
  cbn [orb].
  destruct (log_defined a ltac:(lia)) as (la & -> & Hla).
  destruct (log_defined b ltac:(lia)) as (lb & -> & Hlb).
  cbn [Js.add rem]. change (255 =? 0) with false. cbv iota.
  apply exp_defined.
  pose proof (Z.rem_bound_pos (la + lb) 255 ltac:(lia) ltac:(lia)). lia.
Qed.

Lemma divide_closed (a b : Z) :
  0 <= a <= 255 -> 0 <= b <= 255 -> b <> 0 ->
  exists q, divide a b = Ok q /\ isFieldElement q = true.
Proof.
  intros Ha Hb Hb0. unfold divide.
  destruct (Z.eqb_spec a 0) as [->|Ha0]; [exists (Num 0); split; reflexivity|].
  destruct (Z.eqb_spec b 0) as [->|_]; [contradiction|].
  destruct (log_defined a ltac:(lia)) as (la & -> & Hla).
  destruct (log_defined b ltac:(lia)) as (lb & -> & Hlb).
  eexists. split; [reflexivity|].
  cbn [Js.add sub neg rem]. change (255 =? 0) with false. cbv iota.
  apply exp_defined.
  pose proof (Z.rem_bound_pos (la + - lb + 255) 255 ltac:(lia) ltac:(lia)). lia.
Qed.

(** X21: field closure: on field elements [add], [subtract] and [multiply]
    return a field element, and so does [divide] when the divisor is not
    zero, without throwing. *)
Lemma field_closure (a b : Z) :
  0 <= a <= 255 -> 0 <= b <= 255 ->
  0 <= GaloisField.add a b <= 255 /\ 0 <= subtract a b <= 255
  /\ isFieldElement (multiply a b) = true
  /\ (b <> 0 -> exists q, divide a b = Ok q /\ isFieldElement q = true).
Proof.
  intros Ha Hb.
  split; [apply xor_closed; assumption|].
  split; [apply xor_closed; assumption|].
  split; [apply multiply_closed; assumption|].
  apply divide_closed; assumption.
Qed.

Lemma field_closure_witness :
  0 <= GaloisField.add 200 100 <= 255 /\ 0 <= subtract 200 100 <= 255
  /\ isFieldElement (multiply 200 100) = true
  /\ (100 <> 0 -> exists q, divide 200 100 = Ok q /\ isFieldElement q = true).
Proof. apply (field_closure 200 100); lia. Defined.

(** Below 2^53 a product is exact. *)
Lemma double_exact (z : Z) : 0 <= z < 2 ^ 53 -> double z = Num z.
Proof.
  intros Hz. unfold double. rewrite Z.abs_eq by lia.
  destruct (Z.ltb_spec z (2 ^ 53)); [reflexivity | lia].
Qed.

(** Below 2^1023 a product rounds to a number, which is not negative. *)
Lemma double_finite (z : Z) :
  0 <= z < 2 ^ 1023 -> exists m, double z = Num m /\ 0 <= m.
Proof.
  intros Hz. unfold double. rewrite Z.abs_eq by lia.
  destruct (Z.ltb_spec z (2 ^ 53)) as [|Hbig]; [exists z; split; [reflexivity | lia]|].
  assert (Hpos : 0 < z) by (pose proof (Z.pow_pos_nonneg 2 53); lia).
  pose proof (Z.log2_spec z Hpos) as [Hlo Hhi].
  assert (HL1 : Z.log2 z < 1023) by (apply Z.log2_lt_pow2; lia).
  assert (HL0 : 53 <= Z.log2 z) by (apply Z.log2_le_pow2; lia).
  set (e := Z.log2 z - 52) in *.
  assert (He : 1 <= e <= 970) by (unfold e; lia).
  assert (Hpe : 0 < 2 ^ e) by (apply Z.pow_pos_nonneg; lia).
  assert (Hq : 0 <= z / 2 ^ e < 2 ^ 53).
  { split; [apply Z.div_pos; lia|].
    apply Z.div_lt_upper_bound; [lia|].
    rewrite <- Z.pow_add_r by lia.
    replace (e + 53) with (Z.succ (Z.log2 z)) by (unfold e; lia). exact Hhi. }
  match goal with
  | |- context [if ?c then z / 2 ^ e + 1 else z / 2 ^ e] =>
      set (q' := if c then z / 2 ^ e + 1 else z / 2 ^ e);
      assert (Hq' : 0 <= q' <= 2 ^ 53) by (unfold q'; destruct c; lia)
  end.
  assert (Hm : q' * 2 ^ e <= 2 ^ 53 * 2 ^ 970).
  { apply Z.mul_le_mono_nonneg; try lia. apply Z.pow_le_mono_r; lia. }
  assert (Hlt : 2 ^ 53 * 2 ^ 970 < 2 ^ 1024).
  { rewrite <- Z.pow_add_r by lia. apply Z.pow_lt_mono_r; lia. }
  destruct (Z.leb_spec (2 ^ 1024) (q' * 2 ^ e)); [lia|].
  eexists. split; [reflexivity|].
  rewrite Z.sgn_pos by lia. nia.
Qed.

(** [power] on a base that is not zero, for every exponent whose product
    with the logarithm does not overflow a double. *)
Lemma power_nonzero_closed (x n : Z) :
  1 <= x <= 255 -> 0 <= n <= 2 ^ 1000 -> isFieldElement (power x n) = true.
Proof.
  intros Hx Hn. unfold power.
  destruct (log_defined x Hx) as (l & -> & Hl).
  cbn [mul].
  assert (Hprod : 0 <= l * n < 2 ^ 1023).
  { split; [nia|].
    apply Z.le_lt_trans with (254 * 2 ^ 1000); [nia|].
    change (2 ^ 1023) with (2 ^ 23 * 2 ^ 1000).
    apply Z.mul_lt_mono_pos_r; [apply Z.pow_pos_nonneg; lia | reflexivity]. }
  destruct (double_finite _ Hprod) as (m & -> & Hm).
  cbn [rem]. change (255 =? 0) with false. cbv iota.
  apply exp_defined.
  pose proof (Z.rem_bound_pos m 255 ltac:(lia) ltac:(lia)). lia.
Qed.

Lemma log_zero : index (logTable tables) (Num 0) = NegInfinity.
Proof. vm_compute. reflexivity. Qed.

(** C4 (the code at the base 0): [power(0, n)] is not a field element; for
    every exponent the table index is NaN and the read yields
    [undefined]. *)
Theorem power_zero_base_undefined (n : Z) :
  power 0 n = Undefined /\ isFieldElement (power 0 n) = false.
Proof.
  assert (E : power 0 n = Undefined).
  { unfold power. rewrite log_zero. cbn [mul].
    destruct (n =? 0); [reflexivity|].
    destruct (n <? 0); reflexivity. }
  rewrite E. split; reflexivity.
Qed.

(** [divide] with a numerator that is not zero. *)
Lemma divide_by_zero (a : Z) : a <> 0 -> divide a 0 = Throw DivisionByZero.
Proof.
  intros Ha. unfold divide.
  destruct (Z.eqb_spec a 0); [contradiction | reflexivity].
Qed.

Lemma divide_nonzero (a b : Z) :
  b <> 0 ->
  divide a b =
    if a =? 0 then Ok (Num 0)
    else Ok (index (expTable tables)
               (rem (Js.add (sub (index (logTable tables) (Num a))
                                 (index (logTable tables) (Num b))) (Num 255)) (Num 255))).
Proof.
  intros Hb. unfold divide.
  destruct (a =? 0); [reflexivity|].
  destruct (Z.eqb_spec b 0); [contradiction | reflexivity].
Qed.

(** C6 (the code at 0/0): the test of the numerator comes first, so
    [divide(0, 0)] returns 0 and does not throw. *)
Theorem divide_zero_by_zero : divide 0 0 = Ok (Num 0).
Proof. reflexivity. Qed.

Lemma inverse_everywhere : forallb (fun a => (a =? 0) || inverseAt a) fieldElements = true.
Proof. vm_compute. reflexivity. Qed.

(** C9: for every non-zero field element [a], [divide(1, a)] is a field
    element [d] with [multiply(a, d) = 1]. *)
Theorem divide_one_is_inverse (a : Z) :
  1 <= a <= 255 ->
  exists d, divide 1 a = Ok (Num d) /\ 0 <= d <= 255 /\ multiply a d = Num 1.
Proof.
  intros Ha.
  pose proof (forall_fieldElements _ inverse_everywhere a ltac:(lia)) as Hinv.
  cbv beta in Hinv.
  destruct (Z.eqb_spec a 0) as [->|_]; [lia|].
  rewrite orb_false_l in Hinv. unfold inverseAt in Hinv.
  destruct (divide 1 a) as [[d| | | |]|e]; try discriminate.
  apply andb_prop in Hinv as [Hd Hm].
  apply andb_prop in Hd as [Hd0 Hd1].
  apply Z.leb_le in Hd0, Hd1.
  exists d. split; [reflexivity|]. split; [lia|].
  destruct (multiply a d) as [p| | | |]; try discriminate.
  apply Z.eqb_eq in Hm. now subst p.
Qed.

Lemma divide_one_is_inverse_witness :
  exists d, divide 1 3 = Ok (Num d) /\ 0 <= d <= 255 /\ multiply 3 d = Num 1.
Proof. apply (divide_one_is_inverse 3). lia. Defined.

End Field.

(* ===================================================================== *)
(** ** Encoding *)

Section Encoding.

(** What the chain of comparisons does, as a function of the version. *)
Lemma getCharacterCountIndicatorSize_cases (version : Z) (mode : EncodingMode) :
  (version <= 9 -> getCharacterCountIndicatorSize version alphanumeric = Ok 9)
  /\ (10 <= version <= 26 -> getCharacterCountIndicatorSize version alphanumeric = Ok 11)
  /\ (27 <= version <= 40 -> getCharacterCountIndicatorSize version alphanumeric = Ok 13)
  /\ (40 < version ->
      getCharacterCountIndicatorSize version alphanumeric = Throw (UnknownVersion version))
  /\ (mode <> alphanumeric ->
      getCharacterCountIndicatorSize version mode = Throw (UnsupportedMode mode)).
Proof.
  unfold getCharacterCountIndicatorSize.
  repeat split; intros Hv.
  - destruct (Z.leb_spec version 9); [reflexivity | lia].
  - destruct (Z.leb_spec version 9); [lia|].
    destruct (Z.leb_spec version 26); [reflexivity | lia].
  - destruct (Z.leb_spec version 9); [lia|].
    destruct (Z.leb_spec version 26); [lia|].
    destruct (Z.leb_spec version 40); [reflexivity | lia].
  - destruct (Z.leb_spec version 9); [lia|].
    destruct (Z.leb_spec version 26); [lia|].
    destruct (Z.leb_spec version 40); [lia | reflexivity].
  - destruct mode; [reflexivity | contradiction | reflexivity | reflexivity].
Qed.

(** C7 (the code at the versions 0 and -5): the function checks the upper
    end of the range 1-40, throwing 'Only versions 1-40 are supported' at
    41, but not the lower end: its first comparison, [version <= 9],
    accepts every version below 1, and the call returns 9 where the claim
    has it fail. *)
Theorem getCharacterCountIndicatorSize_below_one :
  getCharacterCountIndicatorSize 0 alphanumeric = Ok 9
  /\ getCharacterCountIndicatorSize (-5) alphanumeric = Ok 9
  /\ getCharacterCountIndicatorSize 41 alphanumeric = Throw (UnknownVersion 41).
Proof. repeat split. Qed.

(** Induction on a list taken two elements at a time. *)
Lemma list_pair_ind {A} (P : list A -> Prop) :
  P [] -> (forall a, P [a]) -> (forall a b l, P l -> P (a :: b :: l)) ->
  forall l, P l.
Proof.
  intros Hnil Hone Hstep l.
  enough (P l /\ forall a, P (a :: l)) as [Hl _] by exact Hl.
  induction l as [|b l [IHl IHbl]].
  - split; [exact Hnil | exact Hone].
  - split; [apply IHbl|].
    intros a. apply Hstep, IHl.
Qed.

(** The character loop throws exactly when it meets a character whose
    table entry is falsy. *)
Lemma encodeGroups_ok (data : list ascii) :
  forall encoded, isOk (encodeGroups data encoded) = forallb accepted data.
Proof.
  induction data as [|a|a b l IH] using list_pair_ind; intros encoded.
  - reflexivity.
  - cbn [encodeGroups forallb]. unfold accepted.
    destruct (falsy (ALPHANUMERIC_ENCODING_TABLE !! char a)); reflexivity.
  - cbn [encodeGroups forallb]. unfold accepted at 1 2.
    destruct (falsy (ALPHANUMERIC_ENCODING_TABLE !! char a)); [reflexivity|].
    destruct (falsy (ALPHANUMERIC_ENCODING_TABLE !! char b)); [reflexivity|].
    cbn [negb andb]. apply IH.
Qed.

Lemma forallb_pointwise {A} (f g : A -> bool) (l : list A) :
  (forall a, f a = g a) -> forallb f l = forallb g l.
Proof.
  intros Hfg. induction l as [|a l IH]; [reflexivity|].
  cbn [forallb]. now rewrite Hfg, IH.
Qed.

(** The accepted characters are those of the alphabet other than the
    digit 0, whose table value, 0, is falsy. *)
Lemma accepted_alphabet (c : ascii) :
  accepted c = inAlphabet c && negb (Ascii.eqb c "0").
Proof.
  destruct c as [[] [] [] [] [] [] [] []]; vm_compute; reflexivity.
Qed.

(** [encodeAlphanumeric(data, 1, 'M')] returns exactly when every
    character of [data] is in the alphabet and is not the digit 0. *)
Lemma encodeAlphanumeric_ok (data : string) :
  isOk (encodeAlphanumeric data 1 Level.M)
  = forallb (fun c => inAlphabet c && negb (Ascii.eqb c "0")) (list_ascii_of_string data).
Proof.
  unfold encodeAlphanumeric.
  change (negb (1 =? 1)) with false. cbv iota.
  change (getCharacterCountIndicatorSize 1 alphanumeric) with (Ok (A := Z) 9).
  cbn [bind].
  match goal with
  | |- context [encodeGroups ?d ?e] =>
      pose proof (encodeGroups_ok d e) as Hok; destruct (encodeGroups d e)
  end; cbn [bind isOk] in *;
    (etransitivity; [exact Hok|]); apply forallb_pointwise; intros c; apply accepted_alphabet.
Qed.

(** C3 (the code at the string "0"): the digit 0 is in the alphabet, with
    table value 0, and the encoder rejects it as non-alphanumeric. *)
Theorem encodeAlphanumeric_rejects_digit_zero :
  inAlphabet "0" = true
  /\ ALPHANUMERIC_ENCODING_TABLE !! "0"%string = Some 0
  /\ encodeAlphanumeric "0" 1 Level.M = Throw (NonAlphanumericCharacter "0").
Proof. repeat split. Qed.

(** C2 (the claim fails on the remainder of the buffer): the bytes after
    the six written ones are not the pad pattern. *)
Lemma encodeAlphanumeric_AC42_not_padded :
  ~ (exists b, encodeAlphanumeric "AC-42" 1 Level.M = Ok b
               /\ drop 6 (buffer b) = padCodewords 10).
Proof.
  intros (b & Hb & Hpad).
  vm_compute in Hb. injection Hb as <-.
  vm_compute in Hpad. discriminate Hpad.
Qed.

(** C2 (amended): [encodeAlphanumeric("AC-42", 1, 'M')] returns the
    16-byte buffer that holds the 41 bits of the mode, count and character
    groups, the terminator and the alignment in its first six bytes, with
    the cursor at byte 6 and the ten remaining bytes zero; the pad pattern
    is written by [encode], which fills that buffer. *)
Theorem encodeAlphanumeric_AC42 :
  exists b,
    encodeAlphanumeric "AC-42" 1 Level.M = Ok b
    /\ toString false b
       = ("00100000001010011100111011100111001000010" +:+ "0000" +:+ "000" +:+ zeros 80)%string
    /\ length b = 16 /\ bytePointer b = 6 /\ bitPointer b = 0
    /\ drop 6 (buffer b) = replicate 10 0
    /\ forall qrType,
         encode "AC-42" alphanumeric qrType
         = Ok {| buffer := take 6 (buffer b) ++ padCodewords 10;
                 bytePointer := 16; bitPointer := 0 |}.
Proof.
  eexists. split; [vm_compute; reflexivity|].
  repeat split.
Qed.

(** The repository's test of [encodeAlphanumeric]. *)
Example test_Alphanumeric :
  let expected :=
    appendBits 276280757826 None (appendBits 0 (Some 2) (new 16)) in
  toString false <$> (match encodeAlphanumeric "AC-42" 1 Level.M with
                      | Ok b => Some b | Throw _ => None end)
  = Some (toString false expected).
Proof. vm_compute. reflexivity. Qed.

End Encoding.

(* ===================================================================== *)
(** ** BitBuffer: padByte and fill *)

Section Fill.

Lemma set_length (a : list Z) (i v : Z) : List.length (set a i v) = List.length a.
Proof.
  unfold set. destruct (0 <=? i); [apply length_insert | reflexivity].
Qed.

Lemma padByte_buffer (b : BitBuffer) : buffer (padByte b) = buffer b.
Proof. unfold padByte. destruct (0 <? bitPointer b); reflexivity. Qed.

Lemma padByte_length (b : BitBuffer) : length (padByte b) = length b.
Proof. unfold length. now rewrite padByte_buffer. Qed.

Lemma padByte_bytePointer (b : BitBuffer) :
  bytePointer b <= bytePointer (padByte b) <= bytePointer b + 1.
Proof. unfold padByte. destruct (0 <? bitPointer b); cbn; lia. Qed.

Lemma padByte_bitPointer (b : BitBuffer) : bitPointer (padByte b) <= 0.
Proof. unfold padByte. destruct (Z.ltb_spec 0 (bitPointer b)); cbn; lia. Qed.

(** The loop of [fill] never changes the size of the storage nor the bit
    pointer. *)
Lemma fillLoop_length (n : nat) :
  forall i b, length (fillLoop n i b) = length b
              /\ bitPointer (fillLoop n i b) = bitPointer b.
Proof.
  induction n as [|n IH]; intros i b; cbn [fillLoop]; [split; reflexivity|].
  destruct (bytePointer b <? length b); [|split; reflexivity].
  destruct (IH (Z.rem (i + 1) 2)
              {| buffer := set (buffer b) (bytePointer b) (default 0 (get PAD_CODEWORDS i));
                 bytePointer := bytePointer b + 1;
                 bitPointer := bitPointer b |}) as [-> ->].
  unfold length. cbn [buffer bitPointer]. now rewrite set_length.
Qed.

(** With at least [length - bytePointer] turns the loop ends because its
    condition fails: the byte pointer has reached the end of the storage. *)
Lemma fillLoop_exits (n : nat) :
  forall i b, length b - bytePointer b <= Z.of_nat n ->
              length (fillLoop n i b) <= bytePointer (fillLoop n i b).
Proof.
  induction n as [|n IH]; intros i b Hn; cbn [fillLoop]; [lia|].
  destruct (Z.ltb_spec (bytePointer b) (length b)); [|lia].
  apply IH. unfold length in *. cbn [buffer bytePointer]. rewrite set_length. lia.
Qed.

(** A loop that starts at the end of the storage, or past it, does
    nothing. *)
Lemma fillLoop_full (n : nat) (i : Z) (b : BitBuffer) :
  length b <= bytePointer b -> fillLoop n i b = b.
Proof.
  intros Hfull. destruct n as [|n]; cbn [fillLoop]; [reflexivity|].
  destruct (Z.ltb_spec (bytePointer b) (length b)); [lia | reflexivity].
Qed.

(** [fill] always leaves the stream full. *)
Lemma fill_full (b : BitBuffer) : length (fill b) <= bytePointer (fill b).
Proof. unfold fill. apply fillLoop_exits. lia. Qed.

Lemma padIndex_next (j : nat) : Z.rem (padIndex j + 1) 2 = padIndex (S j).
Proof.
  unfold padIndex. rewrite Nat.even_succ, <- Nat.negb_even.
  destruct (Nat.even j); reflexivity.
Qed.

Lemma padIndex_codeword (j : nat) :
  default 0 (get PAD_CODEWORDS (padIndex j)) mod 256 = if Nat.even j then 0xEC else 0x11.
Proof. unfold padIndex. destruct (Nat.even j); reflexivity. Qed.

(** The loop, started [n] bytes before the end with the pad index of place
    [j], writes the [n] codewords of the places [j], [j+1], ... *)
Lemma fillLoop_exact (n : nat) :
  forall (j : nat) (b : BitBuffer),
    0 <= bytePointer b -> bytePointer b + Z.of_nat n = length b ->
    fillLoop n (padIndex j) b
    = {| buffer := take (Z.to_nat (bytePointer b)) (buffer b) ++ padFrom j n;
         bytePointer := length b;
         bitPointer := bitPointer b |}.
Proof.
  induction n as [|n IH]; intros j [buf bp bitp]; unfold length; cbn [buffer bytePointer bitPointer];
    intros Hbp Hlen; cbn [fillLoop].
  - unfold padFrom. cbn [seq List.map]. rewrite app_nil_r, take_ge by lia.
    f_equal. lia.
  - unfold length. cbn [buffer bytePointer bitPointer].
    destruct (Z.ltb_spec bp (Z.of_nat (List.length buf))); [|lia].
    rewrite padIndex_next, IH; cbn [buffer bytePointer bitPointer]; unfold length;
      cbn [buffer]; rewrite ?set_length; try lia.
    f_equal.
    unfold set. destruct (Z.leb_spec 0 bp); [|lia].
    rewrite padIndex_codeword.
    replace (Z.to_nat (bp + 1)) with (S (Z.to_nat bp)) by lia.
    rewrite (take_S_r _ _ (if Nat.even j then 236 else 17))
      by (apply list_lookup_insert_eq; lia).
    rewrite take_insert_ge by lia.
    rewrite <- app_assoc. reflexivity.
Qed.

(** C8: [fill] first aligns with [padByte]; it then leaves the bytes
    before the aligned cursor as they are and writes 0xEC, 0x11, 0xEC, ...
    into every byte from the cursor to the end of the storage, whose size
    does not change; the cursor ends at or past the end of the storage
    (the stream is full), and a second [fill] changes nothing. *)
Theorem fill_spec (b : BitBuffer) :
  0 <= bytePointer b ->
  let aligned := padByte b in
  buffer (fill b)
  = take (Z.to_nat (bytePointer aligned)) (buffer b)
      ++ padCodewords (Z.to_nat (length b - bytePointer aligned))
  /\ length (fill b) = length b
  /\ bytePointer (fill b) = Z.max (bytePointer aligned) (length b)
  /\ bitPointer (fill b) = bitPointer aligned
  /\ length (fill b) <= bytePointer (fill b)
  /\ fill (fill b) = fill b.
Proof.
  intros Hbp aligned.
  assert (Hlen : length (fill b) = length b).
  { unfold fill. rewrite (proj1 (fillLoop_length _ _ _)). apply padByte_length. }
  assert (Hbit : bitPointer (fill b) = bitPointer aligned).
  { unfold fill. now rewrite (proj2 (fillLoop_length _ _ _)). }
  pose proof (fill_full b) as Hfull.
  assert (Hidem : fill (fill b) = fill b).
  { unfold fill at 1.
    assert (Hpad : padByte (fill b) = fill b).
    { unfold padByte. rewrite Hbit.
      destruct (Z.ltb_spec 0 (bitPointer aligned)); [|reflexivity].
      pose proof (padByte_bitPointer b) as Hle. unfold aligned in *. lia. }
    rewrite Hpad. apply fillLoop_full, Hfull. }
  pose proof (padByte_bytePointer b) as Hal. fold aligned in Hal.
  pose proof (padByte_length b) as Hall. fold aligned in Hall.
  pose proof (padByte_buffer b) as Halb. fold aligned in Halb.
  destruct (Z.le_gt_cases (length b) (bytePointer aligned)) as [Hge|Hlt].
  - (* the aligned cursor is already at the end *)
    assert (E : fill b = aligned).
    { unfold fill. fold aligned. apply fillLoop_full. lia. }
    rewrite E in *.
    repeat split; try assumption; try lia.
    replace (Z.to_nat (length b - bytePointer aligned)) with 0%nat by lia.
    unfold padCodewords, padFrom. cbn [seq List.map].
    rewrite app_nil_r, take_ge, Halb; [reflexivity|].
    unfold length in Hge. lia.
  - assert (E : fill b
                = {| buffer := take (Z.to_nat (bytePointer aligned)) (buffer aligned)
                                 ++ padFrom 0 (Z.to_nat (length aligned - bytePointer aligned));
                     bytePointer := length aligned;
                     bitPointer := bitPointer aligned |}).
    { unfold fill. fold aligned. apply (fillLoop_exact _ 0%nat); lia. }
    rewrite Halb, Hall in E.
    rewrite E in *. cbn [buffer bytePointer bitPointer] in *.
    repeat split; try assumption; try lia.
Qed.

Lemma fill_spec_witness :
  let b := appendBits 5 (Some 3) (new 4) in
  buffer (fill b) = [160; 236; 17; 236]
  /\ length (fill b) = 4
  /\ bytePointer (fill b) = 4
  /\ fill (fill b) = fill b.
Proof.
  intros b.
  destruct (fill_spec b ltac:(vm_compute; discriminate)) as (Hbuf & Hlen & Hbp & _ & _ & Hidem).
  split; [exact Hbuf|]. split; [exact Hlen|]. split; [exact Hbp | exact Hidem].
Defined.

End Fill.

(* ===================================================================== *)
(** ** BitBuffer: appendBits *)

Section Append.
Import Js.

Lemma ToInt32_testbit (x j : Z) : 0 <= j < 32 -> Z.testbit (ToInt32 x) j = Z.testbit x j.
Proof.
  intros Hj.
  rewrite <- (Z.mod_pow2_bits_low (ToInt32 x) 32 j), <- (Z.mod_pow2_bits_low x 32 j) by lia.
  f_equal. unfold ToInt32.
  rewrite Zminus_mod_idemp_l. f_equal. lia.
Qed.

Lemma ToInt32_b2z (t : bool) : ToInt32 (Z.b2z t) = Z.b2z t.
Proof. destruct t; reflexivity. Qed.

Lemma testbit_b2z (t : bool) (k : Z) : Z.testbit (Z.b2z t) k = t && (k =? 0).
Proof.
  destruct t; cbn [Z.b2z andb]; [|apply Z.bits_0].
  destruct k as [|p|p]; [reflexivity | destruct p; reflexivity | reflexivity].
Qed.

(** [Math.floor(value / Math.pow(2, i)) & 1] is bit [i] of [value]. *)
Lemma extract_bit (value i : Z) :
  0 <= i -> and (value / 2 ^ i) 1 = Z.b2z (Z.testbit value i).
Proof.
  intros Hi. unfold and.
  change (ToInt32 1) with (Z.ones 1).
  rewrite Z.land_ones by lia.
  change (2 ^ 1) with 2.
  rewrite <- Z.bit0_mod, ToInt32_testbit by lia.
  rewrite Z.div_pow2_bits by lia.
  reflexivity.
Qed.

(** The bits of the byte stored by [buffer[p] |= bit << s]. *)
Lemma stored_byte_bits (old s j : Z) (t : bool) :
  0 <= j < 8 ->
  Z.testbit (or old (shl (Z.b2z t) s) mod 256) j
  = Z.testbit old j || (t && (j =? s mod 32)).
Proof.
  intros Hj.
  change 256 with (2 ^ 8). rewrite Z.mod_pow2_bits_low by lia.
  unfold or, shl. rewrite Z.lor_spec, !ToInt32_testbit by lia.
  rewrite ToInt32_b2z.
  assert (0 <= s mod 32 < 32) by (apply Z.mod_pos_bound; lia).
  rewrite Z.shiftl_spec by lia.
  rewrite testbit_b2z.
  f_equal. f_equal.
  destruct (Z.eqb_spec (j - s mod 32) 0), (Z.eqb_spec j (s mod 32)); reflexivity || lia.
Qed.

Lemma get_set (a : list Z) (i v i' : Z) :
  get (set a i v) i'
  = if (i' =? i) && (0 <=? i) && (i <? Z.of_nat (List.length a))
    then Some (v mod 256) else get a i'.
Proof.
  unfold get, set.
  destruct (Z.leb_spec 0 i); [|now rewrite andb_false_r].
  rewrite andb_true_r.
  destruct (Z.eqb_spec i' i) as [->|Hne]; cbn [andb].
  - destruct (Z.leb_spec 0 i); [|lia].
    destruct (Z.ltb_spec i (Z.of_nat (List.length a))).
    + apply list_lookup_insert_eq. lia.
    + rewrite list_insert_ge by lia. reflexivity.
  - destruct (Z.leb_spec 0 i'); [|reflexivity].
    apply list_lookup_insert_ne. lia.
Qed.

Lemma get_in_range (a : list Z) (i : Z) :
  0 <= i < Z.of_nat (List.length a) -> exists x, get a i = Some x.
Proof.
  intros Hi. unfold get.
  destruct (Z.leb_spec 0 i); [|lia].
  destruct (lookup_lt_is_Some_2 a (Z.to_nat i) ltac:(lia)) as [x Hx].
  now exists x.
Qed.

Lemma writeBit_buffer (value i : Z) (b : BitBuffer) :
  buffer (writeBit value i b)
  = set (buffer b) (bytePointer b)
      (or (default 0 (get (buffer b) (bytePointer b)))
          (shl (and (value / 2 ^ i) 1) (7 - bitPointer b))).
Proof. unfold writeBit. destruct (bitPointer b + 1 =? 8); reflexivity. Qed.

Lemma writeBit_length (value i : Z) (b : BitBuffer) :
  length (writeBit value i b) = length b.
Proof. unfold length. now rewrite writeBit_buffer, set_length. Qed.

Lemma writeBit_cursor (value i : Z) (b : BitBuffer) :
  cursor (writeBit value i b) = cursor b + 1.
Proof.
  unfold writeBit, cursor.
  destruct (Z.eqb_spec (bitPointer b + 1) 8); cbn [bytePointer bitPointer]; lia.
Qed.

(** What one turn of the loop does to the pointers. *)
Lemma writeBit_pointers (value i : Z) (b : BitBuffer) :
  bitPointer b < 8 ->
  bitPointer (writeBit value i b) < 8
  /\ bytePointer b <= bytePointer (writeBit value i b)
  /\ (0 <= bitPointer b -> 0 <= bitPointer (writeBit value i b))
  /\ (0 <= bitPointer (writeBit value i b)
      \/ bytePointer (writeBit value i b) = bytePointer b).
Proof.
  intros Hlt. unfold writeBit.
  destruct (Z.eqb_spec (bitPointer b + 1) 8); cbn [bytePointer bitPointer]; lia.
Qed.

(** One turn of the loop sets the bit under the cursor, if the storage
    has it, and no other. *)
Lemma writeBit_bits (value i : Z) (b : BitBuffer) (k : Z) :
  wellFormed b -> 0 <= i ->
  bitAt (buffer (writeBit value i b)) k
  = bitAt (buffer b) k
    || ((k =? cursor b) && (k <? 8 * length b) && Z.testbit value i).
Proof.
  intros [Hbp Hbit] Hi. unfold bitAt, cursor, length.
  rewrite writeBit_buffer, get_set, extract_bit by assumption.
  destruct (Z.eqb_spec (k / 8) (bytePointer b)) as [Hk|Hk]; cbn [andb].
  - destruct (Z.leb_spec 0 (bytePointer b)); [|lia]. cbn [andb].
    destruct (Z.ltb_spec (bytePointer b) (Z.of_nat (List.length (buffer b)))) as [Hin|Hout].
    + destruct (get_in_range (buffer b) (bytePointer b) ltac:(lia)) as [old Hold].
      rewrite Hk, Hold. cbn [default from_option]. unfold id.
      rewrite stored_byte_bits by (pose proof (Z.mod_pos_bound k 8); lia).
      rewrite (Z.mod_small (7 - bitPointer b) 32) by lia.
      f_equal.
      destruct (Z.ltb_spec k (8 * Z.of_nat (List.length (buffer b))));
        [|pose proof (Z.mod_pos_bound k 8); pose proof (Z.div_mod k 8); lia].
      rewrite andb_true_r, andb_comm. f_equal.
      destruct (Z.eqb_spec (7 - k mod 8) (7 - bitPointer b)),
               (Z.eqb_spec k (8 * bytePointer b + bitPointer b));
        try reflexivity; pose proof (Z.div_mod k 8); pose proof (Z.mod_pos_bound k 8);
        [exfalso; lia | exfalso].
      assert (k mod 8 = bitPointer b); [|lia].
      subst k. rewrite Z.add_comm, Z.mul_comm, Z.mod_add by lia.
      apply Z.mod_small. lia.
    + destruct (Z.ltb_spec k (8 * Z.of_nat (List.length (buffer b))));
        [pose proof (Z.mod_pos_bound k 8); pose proof (Z.div_mod k 8); lia|].
      now rewrite andb_false_r, orb_false_r.
  - destruct (Z.eqb_spec k (8 * bytePointer b + bitPointer b)) as [->|_];
      [|now rewrite orb_false_r].
    exfalso. apply Hk.
    rewrite Z.add_comm, Z.mul_comm, Z.div_add by lia.
    rewrite Z.div_small; lia.
Qed.

(** The pointers after [n] turns of the loop. *)
Lemma appendLoop_pointers (value : Z) (n : nat) :
  forall b, bitPointer b < 8 ->
    cursor (appendLoop value n b) = cursor b + Z.of_nat n
    /\ length (appendLoop value n b) = length b
    /\ bitPointer (appendLoop value n b) < 8
    /\ bytePointer b <= bytePointer (appendLoop value n b)
    /\ (0 <= bitPointer b -> 0 <= bitPointer (appendLoop value n b))
    /\ (0 <= bitPointer (appendLoop value n b)
        \/ bytePointer (appendLoop value n b) = bytePointer b).
Proof.
  induction n as [|n IH]; intros b Hlt; cbn [appendLoop].
  - repeat split; lia.
  - destruct (writeBit_pointers value (Z.of_nat n) b Hlt) as (H8 & Hmono & Hpos & Hor).
    destruct (IH _ H8) as (Hc & Hl & H8' & Hmono' & Hpos' & Hor').
    rewrite Hc, Hl, writeBit_cursor, writeBit_length.
    repeat split; lia.
Qed.

(** The bits after [n] turns of the loop: the bits [n-1], ..., 0 of
    [value] are set, in that order, from the cursor on, as far as the
    storage reaches. *)
Lemma appendLoop_bits (value : Z) (n : nat) :
  forall b k, wellFormed b ->
    bitAt (buffer (appendLoop value n b)) k
    = bitAt (buffer b) k
      || ((cursor b <=? k) && (k <? cursor b + Z.of_nat n) && (k <? 8 * length b)
          && Z.testbit value (cursor b + Z.of_nat n - 1 - k)).
Proof.
  induction n as [|n IH]; intros b k Hwf; cbn [appendLoop].
  - destruct (Z.leb_spec (cursor b) k), (Z.ltb_spec k (cursor b + Z.of_nat 0));
      cbn [andb]; rewrite ?orb_false_r; reflexivity || lia.
  - assert (Hwf' : wellFormed (writeBit value (Z.of_nat n) b)).
    { destruct Hwf as [Hbp Hbit].
      destruct (writeBit_pointers value (Z.of_nat n) b ltac:(lia)) as (? & ? & Hpos & _).
      split; [lia|]. split; [apply Hpos; lia | assumption]. }
    rewrite IH, writeBit_bits, writeBit_cursor, writeBit_length by (assumption || lia).
    rewrite <- orb_assoc. f_equal.
    destruct (Z.eqb_spec k (cursor b)) as [->|Hne].
    + replace (cursor b + Z.of_nat (S n) - 1 - cursor b) with (Z.of_nat n) by lia.
      destruct (Z.leb_spec (cursor b + 1) (cursor b)); [lia|].
      destruct (Z.leb_spec (cursor b) (cursor b)); [|lia].
      destruct (Z.ltb_spec (cursor b) (cursor b + Z.of_nat (S n))); [|lia].
      cbn [andb]. now rewrite orb_false_r.
    + cbn [andb orb].
      replace (cursor b + 1 + Z.of_nat n - 1 - k) with (cursor b + Z.of_nat (S n) - 1 - k)
        by lia.
      replace (cursor b + 1 + Z.of_nat n) with (cursor b + Z.of_nat (S n)) by lia.
      f_equal. f_equal. f_equal.
      destruct (Z.leb_spec (cursor b + 1) k), (Z.leb_spec (cursor b) k); reflexivity || lia.
Qed.

Lemma get_app_zeros (a : list Z) (n : Z) (i : Z) :
  default 0 (get (a ++ Uint8Array n) i) = default 0 (get a i).
Proof.
  unfold get, Uint8Array.
  destruct (0 <=? i); [|reflexivity].
  destruct (Nat.lt_ge_cases (Z.to_nat i) (List.length a)) as [Hlt|Hge].
  - now rewrite lookup_app_l.
  - rewrite lookup_app_r by assumption.
    rewrite (lookup_ge_None_2 a) by assumption.
    destruct (replicate (Z.to_nat n) 0 !! (Z.to_nat i - List.length a)%nat) as [x|] eqn:E;
      [|reflexivity].
    apply lookup_replicate in E as [-> _]. reflexivity.
Qed.

(** [ensureCapacity] keeps the pointers and the stored bits, and brings
    the size of the storage to [bytePointer + ceil(bitsToAdd / 8)] when it
    is smaller. *)
Lemma ensureCapacity_spec (bitsToAdd : Z) (b : BitBuffer) :
  bytePointer (ensureCapacity bitsToAdd b) = bytePointer b
  /\ bitPointer (ensureCapacity bitsToAdd b) = bitPointer b
  /\ length (ensureCapacity bitsToAdd b)
     = Z.max (length b) (bytePointer b + ceilDiv8 bitsToAdd)
  /\ (forall k, bitAt (buffer (ensureCapacity bitsToAdd b)) k = bitAt (buffer b) k)
  /\ take (List.length (buffer b)) (buffer (ensureCapacity bitsToAdd b)) = buffer b.
Proof.
  unfold ensureCapacity.
  destruct (Z.ltb_spec (length b) (bytePointer b + ceilDiv8 bitsToAdd)) as [Hgrow|Hfit];
    cbn [buffer bytePointer bitPointer].
  - repeat split.
    + unfold length, Uint8Array in *. cbn [buffer].
      rewrite length_app, length_replicate. lia.
    + intros k. unfold bitAt. now rewrite get_app_zeros.
    + now rewrite take_app_length.
  - repeat split; [lia|]. apply take_ge. lia.
Qed.

Lemma bitWidth_pos (value : Z) : 1 <= bitWidth value.
Proof.
  unfold bitWidth. destruct (value =? 0); [lia|].
  pose proof (Z.log2_nonneg value). lia.
Qed.

(** For a value that is not negative, [realLength] is its bit width. *)
Lemma realLength_bitWidth (value : Z) :
  0 <= value -> (if value =? 0 then 1 else binaryDigits value) = bitWidth value.
Proof.
  intros Hv. unfold bitWidth, binaryDigits.
  destruct (value =? 0); [reflexivity|].
  destruct (Z.ltb_spec value 0); [lia | reflexivity].
Qed.

Lemma testbit_above_width (value j : Z) :
  0 <= value -> bitWidth value <= j -> Z.testbit value j = false.
Proof.
  intros Hv Hj. unfold bitWidth in Hj.
  destruct (Z.eqb_spec value 0) as [->|Hnz]; [apply Z.bits_0|].
  apply Z.bits_above_log2; lia.
Qed.

(** The state in which [appendBits] enters its loop: the storage is that
    of [ensureCapacity], the cursor has moved by the padding. *)
Lemma appendBits_unfold (value len : Z) (b : BitBuffer) :
  0 <= value -> 0 < len ->
  exists b2,
    appendBits value (Some len) b = appendLoop value (Z.to_nat (bitWidth value)) b2
    /\ buffer b2 = buffer (ensureCapacity len b)
    /\ cursor b2 = cursor b + (len - bitWidth value)
    /\ bitPointer b2 < 8
    /\ (0 <= bytePointer b -> bytePointer b <= bytePointer b2)
    /\ (0 <= bitPointer b + (len - bitWidth value) -> 0 <= bitPointer b2)
    /\ (0 <= bitPointer b2
        \/ (bytePointer b2 = bytePointer b
            /\ bitPointer b2 = bitPointer b + (len - bitWidth value))).
Proof.
  intros Hv Hlen. unfold appendBits.
  destruct (Z.eqb_spec len 0); [lia|].
  rewrite (realLength_bitWidth value Hv).
  destruct (ensureCapacity_spec len b) as (Hbp & Hbit & _).
  set (b1 := ensureCapacity len b) in *.
  set (p := bitPointer b1 + (len - bitWidth value)).
  assert (Hp : p = bitPointer b + (len - bitWidth value)) by (unfold p; lia).
  eexists. split; [reflexivity|].
  unfold cursor.
  destruct (Z.leb_spec 8 p); cbn [buffer bytePointer bitPointer].
  - rewrite Z.rem_mod_nonneg by lia.
    pose proof (Z.mod_pos_bound p 8 ltac:(lia)).
    pose proof (Z.div_mod p 8 ltac:(lia)).
    assert (1 <= p / 8) by (apply Z.div_le_lower_bound; lia).
    repeat split; try lia.
  - repeat split; try lia.
Qed.

(** C5 (the code on a length below the bit width): [padding] is then
    negative and the cursor moves back before all the bits of the value are
    written. Inside a byte they are or-ed over bits already written: after
    three zero bits, [appendBits(0b111, 1)] gives the byte 0b01110000, where
    the lowest bit alone, written at the cursor, gives 0b00010000. On a byte
    boundary the bits in excess are shifted out of the byte and the result
    is the truncation: after a full byte 0xFF the same call gives
    0xFF, 0b10000000. *)
Theorem appendBits_short_length_slip :
  cursor (appendBits 0 (Some 3) (new 1)) = 3
  /\ buffer (appendBits 7 (Some 1) (appendBits 0 (Some 3) (new 1))) = [112]
  /\ bitAt (buffer (appendBits 0 (Some 3) (new 1))) 1 = false
  /\ bitAt (buffer (appendBits 7 (Some 1) (appendBits 0 (Some 3) (new 1)))) 1 = true
  /\ cursor (appendBits 7 (Some 1) (appendBits 0 (Some 3) (new 1))) = 4
  /\ buffer (appendBits 7 (Some 1) (appendBits 255 (Some 8) (new 1))) = [255; 128].
Proof. vm_compute. repeat split. Qed.

(** The cursor and the size of the storage after [appendBits]. *)
Lemma appendBits_pointers (value len : Z) (b : BitBuffer) :
  0 <= value -> 0 < len -> wellFormed b ->
  cursor (appendBits value (Some len) b) = cursor b + len
  /\ wellFormed (appendBits value (Some len) b)
  /\ length (appendBits value (Some len) b)
     = Z.max (length b) (bytePointer b + ceilDiv8 len).
Proof.
  intros Hv Hlen [Hbp Hbit].
  destruct (appendBits_unfold value len b Hv Hlen)
    as (b2 & -> & Hbuf & Hc2 & H8 & Hmono & Hpos & Hor).
  pose proof (bitWidth_pos value) as Hw.
  destruct (appendLoop_pointers value (Z.to_nat (bitWidth value)) b2 H8)
    as (Hc & Hl & H8' & Hmono' & Hpos' & Hor').
  rewrite Z2Nat.id in Hc by lia.
  destruct (ensureCapacity_spec len b) as (_ & _ & Hcap & _).
  assert (Hl2 : length b2 = length (ensureCapacity len b))
    by (unfold length; now rewrite Hbuf).
  split; [lia|].
  split; [unfold wellFormed, cursor in *; lia | lia].
Qed.

(** The stored bits after [appendBits] with a [length] that covers the
    value. *)
Lemma appendBits_bits (value len : Z) (b : BitBuffer) (k : Z) :
  0 <= value -> wellFormed b -> bitWidth value <= len ->
  bitAt (buffer (appendBits value (Some len) b)) k
  = bitAt (buffer b) k
    || ((cursor b <=? k) && (k <? cursor b + len)
        && (k <? 8 * length (appendBits value (Some len) b))
        && Z.testbit value (cursor b + len - 1 - k)).
Proof.
  intros Hv [Hbp Hbit] Hwide.
  pose proof (bitWidth_pos value) as Hw.
  destruct (appendBits_unfold value len b Hv ltac:(lia))
    as (b2 & -> & Hbuf & Hc2 & H8 & Hmono & Hpos & Hor).
  destruct (appendLoop_pointers value (Z.to_nat (bitWidth value)) b2 H8) as (_ & Hl & _).
  destruct (ensureCapacity_spec len b) as (_ & _ & _ & Hbits1 & _).
  assert (Hwf2 : wellFormed b2) by (unfold wellFormed; lia).
  rewrite appendLoop_bits by assumption.
  rewrite Z2Nat.id by lia.
  rewrite Hl, Hc2, Hbuf, Hbits1. f_equal.
  replace (cursor b + (len - bitWidth value) + bitWidth value) with (cursor b + len) by lia.
  destruct (Z.leb_spec (cursor b + (len - bitWidth value)) k) as [Hin|Hout].
  - destruct (Z.leb_spec (cursor b) k); [reflexivity | lia].
  - rewrite (testbit_above_width value (cursor b + len - 1 - k)) by lia.
    now rewrite !andb_false_r.
Qed.

Lemma new_clean (initialSize : Z) : clean (new initialSize).
Proof.
  intros k _. unfold bitAt, new, Uint8Array. cbn [buffer].
  change (replicate (Z.to_nat initialSize) 0) with ([] ++ Uint8Array initialSize).
  rewrite get_app_zeros. unfold get.
  destruct (0 <=? k / 8); apply Z.bits_0.
Qed.

(** On a clean stream, [appendBits] with a [length] that covers the value
    writes exactly the lowest [length] bits of the value, most significant
    first, into the part of the window that the storage holds, and leaves
    the stream clean. *)
Lemma appendBits_clean (value len : Z) (b : BitBuffer) :
  0 <= value -> wellFormed b -> bitWidth value <= len -> clean b ->
  clean (appendBits value (Some len) b)
  /\ forall k, cursor b <= k < cursor b + len ->
               k < 8 * length (appendBits value (Some len) b) ->
               bitAt (buffer (appendBits value (Some len) b)) k
               = Z.testbit value (cursor b + len - 1 - k).
Proof.
  intros Hv Hwf Hwide Hclean.
  pose proof (bitWidth_pos value) as Hw.
  destruct (appendBits_pointers value len b Hv ltac:(lia) Hwf) as (Hc & _ & _).
  split.
  - intros k Hk. rewrite appendBits_bits by assumption.
    rewrite Hclean by lia.
    destruct (Z.ltb_spec k (cursor b + len)); [lia|].
    now rewrite andb_false_r.
  - intros k Hk Hin. rewrite appendBits_bits by assumption.
    rewrite Hclean by lia.
    destruct (Z.leb_spec (cursor b) k); [|lia].
    destruct (Z.ltb_spec k (cursor b + len)); [|lia].
    destruct (Z.ltb_spec k (8 * length (appendBits value (Some len) b))); [|lia].
    reflexivity.
Qed.

(** The byte pointer never passes the end of the storage during an
    append. *)
Lemma appendBits_bytePointer_le_length (value len : Z) (b : BitBuffer) :
  0 <= value -> 0 < len -> wellFormed b ->
  bytePointer (appendBits value (Some len) b) <= length (appendBits value (Some len) b).
Proof.
  intros Hv Hlen Hwf.
  destruct (appendBits_pointers value len b Hv Hlen Hwf) as (Hc & [Hbp' Hbit'] & Hl).
  destruct Hwf as [Hbp Hbit].
  unfold cursor, ceilDiv8 in *.
  pose proof (Z.div_mod (len + 7) 8 ltac:(lia)).
  pose proof (Z.mod_pos_bound (len + 7) 8 ltac:(lia)).
  lia.
Qed.

(** An append that starts on a byte boundary, or whose window ends inside
    the bytes [ensureCapacity] counts, lies inside the storage. *)
Lemma appendBits_fits (value len : Z) (b : BitBuffer) :
  0 <= value -> 0 < len -> wellFormed b ->
  bitPointer b + len <= 8 * ceilDiv8 len ->
  cursor (appendBits value (Some len) b) <= 8 * length (appendBits value (Some len) b).
Proof.
  intros Hv Hlen Hwf Hfit.
  destruct (appendBits_pointers value len b Hv Hlen Hwf) as (Hc & _ & Hl).
  unfold cursor in *. lia.
Qed.

(** C1 (the code on an append that starts inside a byte and ends past the
    capacity): [ensureCapacity] counts [ceil(length / 8)] bytes from the
    byte pointer and leaves the bit pointer out. On a one-byte buffer that
    holds four bits, appending eight bits does not grow the storage: the
    cursor ends at bit 12 of an 8-bit storage, and the last four bits are
    stored nowhere, so that appending 0xF0 gives the same buffer as
    appending 0xFF. *)
Theorem appendBits_drops_bits_past_capacity :
  appendBits 255 (Some 8) (appendBits 15 (Some 4) (new 1))
  = {| buffer := [255]; bytePointer := 1; bitPointer := 4 |}
  /\ cursor (appendBits 255 (Some 8) (appendBits 15 (Some 4) (new 1))) = 12
  /\ length (appendBits 255 (Some 8) (appendBits 15 (Some 4) (new 1))) = 1
  /\ toArray (appendBits 255 (Some 8) (appendBits 15 (Some 4) (new 1))) = [255]
  /\ appendBits 240 (Some 8) (appendBits 15 (Some 4) (new 1))
     = appendBits 255 (Some 8) (appendBits 15 (Some 4) (new 1)).
Proof. vm_compute. repeat split. Qed.

End Append.

(* ===================================================================== *)
(** ** encode *)

Section Encode.

(** C10: [encode] with the alphanumeric mode does not read [qrType]: its
    result is that of [encodeAlphanumeric(data, 1, 'M')], filled, whatever
    the type, and a returned buffer is full; with any other mode it throws
    the unsupported-mode error, whatever the data. *)
Theorem encode_ignores_qrType (data : string) (qrType qrType' : QRCodeType) :
  encode data alphanumeric qrType = encode data alphanumeric qrType'
  /\ encode data alphanumeric qrType
     = bind (encodeAlphanumeric data 1 Level.M) (fun encoded => Ok (fill encoded))
  /\ match encode data alphanumeric qrType with
     | Ok b => length b <= bytePointer b
     | Throw _ => True
     end
  /\ encode data numeric qrType = Throw (UnsupportedMode numeric)
  /\ encode data byte qrType = Throw (UnsupportedMode byte)
  /\ encode data kanji qrType = Throw (UnsupportedMode kanji).
Proof.
  split; [reflexivity|]. split; [reflexivity|].
  split; [|repeat split].
  unfold encode.
  destruct (encodeAlphanumeric data 1 Level.M) as [encoded|e]; cbn [bind]; [|exact I].
  apply fill_full.
Qed.

End Encode.

(* ===================================================================== *)
(** ** GaloisField: the tables and the field laws *)

Section FieldAlgebra.
Import Js GaloisField.

Lemma expLog_everywhere : forallb (fun x => (x =? 0) || expLogAt x) fieldElements = true.
Proof. vm_compute. reflexivity. Qed.

Lemma logExp_everywhere : forallb (fun i => (i =? 255) || logExpAt i) fieldElements = true.
Proof. vm_compute. reflexivity. Qed.

(** The logarithm of a non-zero element, as a number. *)
Lemma logOf_spec (x : Z) :
  1 <= x <= 255 ->
  index (logTable tables) (Num x) = Num (logOf x)
  /\ 0 <= logOf x <= 254
  /\ index (expTable tables) (Num (logOf x)) = Num x
  /\ expOf (logOf x) = x.
Proof.
  intros Hx.
  pose proof (forall_fieldElements _ expLog_everywhere x ltac:(lia)) as Hc.
  cbv beta in Hc.
  destruct (Z.eqb_spec x 0) as [->|_]; [lia|].
  rewrite orb_false_l in Hc. unfold expLogAt in Hc. unfold expOf, logOf.
  destruct (index (logTable tables) (Num x)) as [l| | | |]; try discriminate.
  apply andb_prop in Hc as [Hl Hy]. apply andb_prop in Hl as [Hl0 Hl1].
  apply Z.leb_le in Hl0, Hl1.
  destruct (index (expTable tables) (Num l)) as [y| | | |]; try discriminate.
  apply Z.eqb_eq in Hy. subst y.
  repeat split; lia.
Qed.

(** The power of the generator at an exponent in [0,254], as a number. *)
Lemma expOf_spec (i : Z) :
  0 <= i <= 254 ->
  index (expTable tables) (Num i) = Num (expOf i)
  /\ 1 <= expOf i <= 255
  /\ index (logTable tables) (Num (expOf i)) = Num i
  /\ logOf (expOf i) = i.
Proof.
  intros Hi.
  pose proof (forall_fieldElements _ logExp_everywhere i ltac:(lia)) as Hc.
  cbv beta in Hc.
  destruct (Z.eqb_spec i 255) as [->|_]; [lia|].
  rewrite orb_false_l in Hc. unfold logExpAt in Hc. unfold expOf at 1 2 3, logOf.
  destruct (index (expTable tables) (Num i)) as [x| | | |] eqn:Ex; try discriminate.
  apply andb_prop in Hc as [Hx Hj]. apply andb_prop in Hx as [Hx0 Hx1].
  apply Z.leb_le in Hx0, Hx1.
  unfold expOf. rewrite Ex.
  destruct (index (logTable tables) (Num x)) as [j| | | |]; try discriminate.
  apply Z.eqb_eq in Hj. subst j.
  repeat split; lia.
Qed.

(** X1: the exponent and logarithm tables built by the static block are
    inverse to each other: [expTable[logTable[x]] = x] for every non-zero
    field element, and [logTable[expTable[i]] = i] for every exponent in
    [0,254], where the power is a non-zero field element. *)
Theorem tables_inverse (x i : Z) :
  (1 <= x <= 255 ->
   exists l, index (logTable tables) (Num x) = Num l /\ 0 <= l <= 254
             /\ index (expTable tables) (Num l) = Num x)
  /\ (0 <= i <= 254 ->
      exists y, index (expTable tables) (Num i) = Num y /\ 1 <= y <= 255
                /\ index (logTable tables) (Num y) = Num i).
Proof.
  split.
  - intros Hx. destruct (logOf_spec x Hx) as (Hl & Hr & He & _).
    exists (logOf x). repeat split; assumption || lia.
  - intros Hi. destruct (expOf_spec i Hi) as (He & Hr & Hl & _).
    exists (expOf i). repeat split; assumption || lia.
Qed.

Lemma tables_inverse_witness :
  (exists l, index (logTable tables) (Num 29) = Num l /\ 0 <= l <= 254
             /\ index (expTable tables) (Num l) = Num 29)
  /\ (exists y, index (expTable tables) (Num 8) = Num y /\ 1 <= y <= 255
                /\ index (logTable tables) (Num y) = Num 8).
Proof.
  split; [apply (tables_inverse 29 8) | apply (tables_inverse 29 8)]; lia.
Defined.

(** [multiply], [divide] and [power] on non-zero elements, through the
    numbers of the tables. *)
Lemma multiply_nonzero (a b : Z) :
  1 <= a <= 255 -> 1 <= b <= 255 ->
  multiply a b = Num (expOf ((logOf a + logOf b) mod 255))
  /\ 1 <= expOf ((logOf a + logOf b) mod 255) <= 255
  /\ logOf (expOf ((logOf a + logOf b) mod 255)) = (logOf a + logOf b) mod 255.
Proof.
  intros Ha Hb. unfold multiply.
  destruct (Z.eqb_spec a 0) as [->|_]; [lia|].
  destruct (Z.eqb_spec b 0) as [->|_]; [lia|].
  cbn [orb].
  destruct (logOf_spec a Ha) as (-> & Hla & _).
  destruct (logOf_spec b Hb) as (-> & Hlb & _).
  cbn [Js.add rem]. change (255 =? 0) with false. cbv iota.
  rewrite Z.rem_mod_nonneg by lia.
  pose proof (Z.mod_pos_bound (logOf a + logOf b) 255 ltac:(lia)) as Hm.
  destruct (expOf_spec ((logOf a + logOf b) mod 255) ltac:(lia)) as (-> & Hr & _ & Hlog).
  repeat split; lia.
Qed.

Lemma divide_nonzero_log (a b : Z) :
  1 <= a <= 255 -> 1 <= b <= 255 ->
  divide a b = Ok (Num (expOf ((logOf a - logOf b) mod 255)))
  /\ 1 <= expOf ((logOf a - logOf b) mod 255) <= 255
  /\ logOf (expOf ((logOf a - logOf b) mod 255)) = (logOf a - logOf b) mod 255.
Proof.
  intros Ha Hb. unfold divide.
  destruct (Z.eqb_spec a 0) as [->|_]; [lia|].
  destruct (Z.eqb_spec b 0) as [->|_]; [lia|].
  destruct (logOf_spec a Ha) as (-> & Hla & _).
  destruct (logOf_spec b Hb) as (-> & Hlb & _).
  cbn [Js.add sub neg rem]. change (255 =? 0) with false. cbv iota.
  rewrite Z.rem_mod_nonneg by lia.
  replace ((logOf a + - logOf b + 255) mod 255) with ((logOf a - logOf b) mod 255)
    by (rewrite <- (Z.mod_add (logOf a - logOf b) 1 255) by lia; f_equal; lia).
  pose proof (Z.mod_pos_bound (logOf a - logOf b) 255 ltac:(lia)) as Hm.
  destruct (expOf_spec ((logOf a - logOf b) mod 255) ltac:(lia)) as (-> & Hr & _ & Hlog).
  repeat split; lia.
Qed.

Lemma power_nonzero (x n : Z) :
  1 <= x <= 255 -> 0 <= n <= 2 ^ 45 + 255 ->
  power x n = Num (expOf ((logOf x * n) mod 255))
  /\ 1 <= expOf ((logOf x * n) mod 255) <= 255
  /\ logOf (expOf ((logOf x * n) mod 255)) = (logOf x * n) mod 255.
Proof.
  intros Hx Hn. unfold power.
  destruct (logOf_spec x Hx) as (-> & Hl & _).
  cbn [mul].
  rewrite double_exact
    by (change (2 ^ 45) with 35184372088832 in Hn;
        change (2 ^ 53) with 9007199254740992; nia).
  cbn [rem]. change (255 =? 0) with false. cbv iota.
  rewrite Z.rem_mod_nonneg by nia.
  pose proof (Z.mod_pos_bound (logOf x * n) 255 ltac:(lia)) as Hm.
  destruct (expOf_spec ((logOf x * n) mod 255) ltac:(lia)) as (-> & Hr & _ & Hlog).
  repeat split; lia.
Qed.

Lemma multiply_zero_l (b : Z) : multiply 0 b = Num 0.
Proof. reflexivity. Qed.

Lemma multiply_zero_r (a : Z) : multiply a 0 = Num 0.
Proof. unfold multiply. now rewrite orb_true_r. Qed.

Lemma xor_small (a b : Z) : 0 <= a <= 255 -> 0 <= b <= 255 -> xor a b = Z.lxor a b.
Proof.
  intros Ha Hb. unfold xor.
  now rewrite !ToInt32_small by (change (2 ^ 31) with 2147483648; lia).
Qed.

(** X2: [add] and [subtract] are the same operation; on field elements it
    is commutative and associative, every element is its own inverse and 0
    is the identity. *)
Theorem add_group_laws (a b c : Z) :
  0 <= a <= 255 -> 0 <= b <= 255 -> 0 <= c <= 255 ->
  subtract a b = GaloisField.add a b
  /\ GaloisField.add a b = GaloisField.add b a
  /\ GaloisField.add (GaloisField.add a b) c = GaloisField.add a (GaloisField.add b c)
  /\ GaloisField.add a a = 0
  /\ GaloisField.add a 0 = a
  /\ GaloisField.add 0 a = a.
Proof.
  intros Ha Hb Hc. unfold subtract, GaloisField.add.
  pose proof (xor_closed a b Ha Hb) as Hab.
  pose proof (xor_closed b c Hb Hc) as Hbc.
  rewrite (xor_small (xor a b) c), (xor_small a (xor b c)) by assumption.
  rewrite !xor_small by (assumption || lia).
  split; [reflexivity|].
  split; [apply Z.lxor_comm|].
  split; [apply Z.lxor_assoc|].
  split; [apply Z.lxor_nilpotent|].
  split; [apply Z.lxor_0_r | apply Z.lxor_0_l].
Qed.

Lemma add_group_laws_witness :
  subtract 211 108 = GaloisField.add 211 108
  /\ GaloisField.add 211 108 = GaloisField.add 108 211
  /\ GaloisField.add (GaloisField.add 211 108) 51 = GaloisField.add 211 (GaloisField.add 108 51)
  /\ GaloisField.add 211 211 = 0
  /\ GaloisField.add 211 0 = 211
  /\ GaloisField.add 0 211 = 211.
Proof. apply (add_group_laws 211 108 51); lia. Defined.

Lemma Js_add_comm (u v : Value) : Js.add u v = Js.add v u.
Proof. destruct u, v; cbn [Js.add]; try reflexivity. f_equal. lia. Qed.

Lemma multiply_sym (a b : Z) : multiply a b = multiply b a.
Proof.
  unfold multiply. rewrite (orb_comm (a =? 0)), (Js_add_comm (index (logTable tables) (Num a))).
  reflexivity.
Qed.

(** X3: [multiply] is commutative, on all arguments; so are its zero
    test and the sum of the two logarithms. *)
Theorem multiply_comm (a b : Z) : multiply a b = multiply b a.
Proof. apply multiply_sym. Qed.

Lemma logOf_one : logOf 1 = 0.
Proof. vm_compute. reflexivity. Qed.

(** X4: on field elements, 1 is the identity of [multiply] and 0 is
    absorbing. *)
Theorem multiply_identity (a : Z) :
  0 <= a <= 255 ->
  multiply a 1 = Num a /\ multiply 1 a = Num a
  /\ multiply a 0 = Num 0 /\ multiply 0 a = Num 0.
Proof.
  intros Ha.
  assert (H1 : multiply a 1 = Num a).
  { destruct (Z.eq_dec a 0) as [->|Hnz]; [reflexivity|].
    destruct (multiply_nonzero a 1 ltac:(lia) ltac:(lia)) as (-> & _).
    destruct (logOf_spec a ltac:(lia)) as (_ & Hl & _ & He).
    rewrite logOf_one, Z.add_0_r, Z.mod_small by lia.
    now rewrite He. }
  split; [exact H1|].
  split; [rewrite multiply_sym; exact H1|].
  split; [apply multiply_zero_r | apply multiply_zero_l].
Qed.

Lemma multiply_identity_witness :
  multiply 87 1 = Num 87 /\ multiply 1 87 = Num 87
  /\ multiply 87 0 = Num 0 /\ multiply 0 87 = Num 0.
Proof. apply (multiply_identity 87). lia. Defined.

(** X5: [multiply] is associative on field elements. *)
Theorem multiply_assoc (a b c : Z) :
  0 <= a <= 255 -> 0 <= b <= 255 -> 0 <= c <= 255 ->
  exists ab bc,
    multiply a b = Num ab /\ multiply b c = Num bc
    /\ 0 <= ab <= 255 /\ 0 <= bc <= 255
    /\ multiply ab c = multiply a bc.
Proof.
  intros Ha Hb Hc.
  destruct (Z.eq_dec a 0) as [->|Ha0].
  { destruct (Z.eq_dec b 0) as [->|Hb0].
    - exists 0, 0. repeat split; lia.
    - destruct (Z.eq_dec c 0) as [->|Hc0].
      + exists 0, 0. rewrite multiply_zero_r. repeat split; lia.
      + destruct (multiply_nonzero b c ltac:(lia) ltac:(lia)) as (E & Hr & _).
        eexists 0, _. split; [reflexivity|]. split; [exact E|].
        repeat split; lia. }
  destruct (Z.eq_dec b 0) as [->|Hb0].
  { exists 0, 0. rewrite !multiply_zero_r. repeat split; lia. }
  destruct (Z.eq_dec c 0) as [->|Hc0].
  { destruct (multiply_nonzero a b ltac:(lia) ltac:(lia)) as (E & Hr & _).
    eexists _, 0. split; [exact E|]. rewrite !multiply_zero_r.
    repeat split; lia. }
  destruct (multiply_nonzero a b ltac:(lia) ltac:(lia)) as (Eab & Hab & Lab).
  destruct (multiply_nonzero b c ltac:(lia) ltac:(lia)) as (Ebc & Hbc & Lbc).
  eexists _, _. split; [exact Eab|]. split; [exact Ebc|].
  split; [lia|]. split; [lia|].
  destruct (multiply_nonzero _ c Hab ltac:(lia)) as (-> & _).
  destruct (multiply_nonzero a _ ltac:(lia) Hbc) as (-> & _).
  rewrite Lab, Lbc.
  rewrite Zplus_mod_idemp_l, Zplus_mod_idemp_r.
  do 2 f_equal. f_equal. lia.
Qed.

Lemma multiply_assoc_witness :
  exists ab bc,
    multiply 3 5 = Num ab /\ multiply 5 7 = Num bc
    /\ 0 <= ab <= 255 /\ 0 <= bc <= 255
    /\ multiply ab 7 = multiply 3 bc.
Proof. apply (multiply_assoc 3 5 7); lia. Defined.

(** X6: division undoes multiplication, and multiplication undoes
    division, by a non-zero field element. *)
Theorem divide_multiply_inverse (a b : Z) :
  0 <= a <= 255 -> 1 <= b <= 255 ->
  (exists p, multiply a b = Num p /\ divide p b = Ok (Num a))
  /\ (exists q, divide a b = Ok (Num q) /\ multiply q b = Num a).
Proof.
  intros Ha Hb.
  destruct (Z.eq_dec a 0) as [->|Ha0].
  { split; exists 0; split; reflexivity. }
  destruct (logOf_spec a ltac:(lia)) as (_ & Hla & _ & Hea).
  destruct (logOf_spec b Hb) as (_ & Hlb & _).
  split.
  - destruct (multiply_nonzero a b ltac:(lia) Hb) as (Em & Hm & Lm).
    eexists. split; [exact Em|].
    destruct (divide_nonzero_log _ b Hm Hb) as (-> & _).
    rewrite Lm, Zminus_mod_idemp_l.
    replace (logOf a + logOf b - logOf b) with (logOf a) by lia.
    rewrite Z.mod_small by lia. now rewrite Hea.
  - destruct (divide_nonzero_log a b ltac:(lia) Hb) as (Ed & Hd & Ld).
    eexists. split; [exact Ed|].
    destruct (multiply_nonzero _ b Hd Hb) as (-> & _).
    rewrite Ld, Zplus_mod_idemp_l.
    replace (logOf a - logOf b + logOf b) with (logOf a) by lia.
    rewrite Z.mod_small by lia. now rewrite Hea.
Qed.

Lemma divide_multiply_inverse_witness :
  (exists p, multiply 42 17 = Num p /\ divide p 17 = Ok (Num 42))
  /\ (exists q, divide 42 17 = Ok (Num q) /\ multiply q 17 = Num 42).
Proof. apply (divide_multiply_inverse 42 17); lia. Defined.

Lemma expOf_zero : expOf 0 = 1.
Proof. vm_compute. reflexivity. Qed.

(** X7: on a non-zero base, for an exponent up to 2^45 (where the product
    of the logarithm and the exponent is an exact double), [power] is
    repeated multiplication: [power(x, 0) = 1], [power(x, 1) = x] and
    [power(x, n + 1) = multiply(power(x, n), x)]. *)
Theorem power_repeated_multiply (x n : Z) :
  1 <= x <= 255 -> 0 <= n <= 2 ^ 45 ->
  power x 0 = Num 1 /\ power x 1 = Num x
  /\ exists p, power x n = Num p /\ 1 <= p <= 255 /\ power x (n + 1) = multiply p x.
Proof.
  intros Hx Hn.
  assert (H45 : 2 ^ 45 = 35184372088832) by reflexivity.
  destruct (logOf_spec x Hx) as (_ & Hl & _ & He).
  split.
  { destruct (power_nonzero x 0 Hx ltac:(lia)) as (-> & _).
    rewrite Z.mul_0_r, Z.mod_0_l by lia. now rewrite expOf_zero. }
  split.
  { destruct (power_nonzero x 1 Hx ltac:(lia)) as (-> & _).
    rewrite Z.mul_1_r, Z.mod_small by lia. now rewrite He. }
  destruct (power_nonzero x n Hx ltac:(lia)) as (Ep & Hp & Lp).
  eexists. split; [exact Ep|]. split; [exact Hp|].
  destruct (power_nonzero x (n + 1) Hx ltac:(lia)) as (-> & _).
  destruct (multiply_nonzero _ x Hp Hx) as (-> & _).
  rewrite Lp, Zplus_mod_idemp_l.
  do 2 f_equal. f_equal. lia.
Qed.

Lemma power_repeated_multiply_witness :
  power 7 0 = Num 1 /\ power 7 1 = Num 7
  /\ exists p, power 7 4 = Num p /\ 1 <= p <= 255 /\ power 7 (4 + 1) = multiply p 7.
Proof.
  apply (power_repeated_multiply 7 4); [lia|].
  split; [lia | vm_compute; discriminate].
Defined.

(** X8: the non-zero elements form a cycle of order 255 under [power]:
    [power(x, 255) = 1], and [power(x, n + 255) = power(x, n)] for an
    exponent up to 2^45 (where the product of the logarithm and the
    exponent is an exact double). *)
Theorem power_cyclic (x n : Z) :
  1 <= x <= 255 -> 0 <= n <= 2 ^ 45 ->
  power x 255 = Num 1 /\ power x (n + 255) = power x n.
Proof.
  intros Hx Hn.
  assert (H45 : 2 ^ 45 = 35184372088832) by reflexivity.
  destruct (power_nonzero x 255 Hx ltac:(lia)) as (-> & _).
  destruct (power_nonzero x (n + 255) Hx ltac:(lia)) as (-> & _).
  destruct (power_nonzero x n Hx ltac:(lia)) as (-> & _).
  rewrite Z.mod_mul by lia. rewrite expOf_zero.
  split; [reflexivity|].
  replace (logOf x * (n + 255)) with (logOf x * n + logOf x * 255) by lia.
  now rewrite Z.mod_add by lia.
Qed.

Lemma power_cyclic_witness :
  power 2 255 = Num 1 /\ power 2 (1 + 255) = power 2 1.
Proof.
  apply (power_cyclic 2 1); [lia|].
  split; [lia | vm_compute; discriminate].
Defined.

(** Past 2^53 the product in [power] is rounded, and the two laws above
    fail, as they do in the program. *)
Example power_rounded :
  power 3 (2 ^ 53 - 1) = Num 8
  /\ power 3 (2 ^ 53 - 256) = Num 116
  /\ power 3 (2 ^ 53 - 2) = Num 72
  /\ multiply 72 3 = Num 216.
Proof. vm_compute. repeat split. Qed.

Lemma expStep_everywhere : forallb (fun i => (i =? 255) || expStepAt i) fieldElements = true.
Proof. vm_compute. reflexivity. Qed.

Lemma xtime_everywhere : forallb xtimeAt fieldElements = true.
Proof. vm_compute. reflexivity. Qed.

Lemma xtimeLinear_everywhere :
  forallb (fun x => forallb (xtimeLinearAt x) fieldElements) fieldElements = true.
Proof. vm_compute. reflexivity. Qed.

(** The exponent table is the orbit of 1 under [xtime]. *)
Lemma xtime_expOf (i : Z) : 0 <= i <= 254 -> xtime (expOf i) = expOf ((i + 1) mod 255).
Proof.
  intros Hi.
  pose proof (forall_fieldElements _ expStep_everywhere i ltac:(lia)) as Hc.
  cbv beta in Hc.
  destruct (Z.eqb_spec i 255) as [->|_]; [lia|].
  rewrite orb_false_l in Hc. now apply Z.eqb_eq in Hc.
Qed.

Lemma xtime_byte (x : Z) : 0 <= x <= 255 -> xtime x = xtimeByte x /\ 0 <= xtime x <= 255.
Proof.
  intros Hx.
  pose proof (forall_fieldElements _ xtime_everywhere x Hx) as Hc.
  unfold xtimeAt in Hc.
  apply andb_prop in Hc as [Hc H1]. apply andb_prop in Hc as [He H0].
  apply Z.leb_le in H0, H1. apply Z.eqb_eq in He.
  split; [exact He | lia].
Qed.

Lemma xtime_linear (x y : Z) :
  0 <= x <= 255 -> 0 <= y <= 255 ->
  0 <= xtime x <= 255 /\ xtime (xor x y) = xor (xtime x) (xtime y).
Proof.
  intros Hx Hy.
  destruct (xtime_byte x Hx) as [Ex Rx].
  destruct (xtime_byte y Hy) as [Ey Ry].
  pose proof (xor_closed x y Hx Hy) as Hxy.
  destruct (xtime_byte (xor x y) Hxy) as [Exy _].
  split; [exact Rx|].
  rewrite (xor_small (xtime x) (xtime y)) by assumption.
  rewrite Exy, Ex, Ey, xor_small by assumption.
  pose proof (forall_fieldElements _ xtimeLinear_everywhere x Hx) as Hrow.
  pose proof (forall_fieldElements _ Hrow y Hy) as Hc.
  now apply Z.eqb_eq in Hc.
Qed.

Lemma xtimes_closed (k : nat) (x : Z) : 0 <= x <= 255 -> 0 <= xtimes k x <= 255.
Proof.
  intros Hx. induction k as [|k IH]; cbn [xtimes]; [exact Hx|].
  apply (xtime_byte _ IH).
Qed.

Lemma xtimes_linear (k : nat) (x y : Z) :
  0 <= x <= 255 -> 0 <= y <= 255 ->
  xtimes k (xor x y) = xor (xtimes k x) (xtimes k y).
Proof.
  intros Hx Hy. induction k as [|k IH]; cbn [xtimes]; [reflexivity|].
  rewrite IH.
  apply xtime_linear; apply xtimes_closed; assumption.
Qed.

Lemma xtimes_zero (k : nat) : xtimes k 0 = 0.
Proof. induction k as [|k IH]; cbn [xtimes]; [reflexivity|]. now rewrite IH. Qed.

Lemma xtimes_expOf (k : nat) (l : Z) :
  0 <= l <= 254 -> xtimes k (expOf l) = expOf ((l + Z.of_nat k) mod 255).
Proof.
  intros Hl. induction k as [|k IH]; cbn [xtimes].
  - now rewrite Z.add_0_r, Z.mod_small by lia.
  - rewrite IH, xtime_expOf by (pose proof (Z.mod_pos_bound (l + Z.of_nat k) 255); lia).
    rewrite Zplus_mod_idemp_l. f_equal. f_equal. lia.
Qed.

(** Multiplying by the [k]-th power of the generator is [k] steps of
    [xtime]. *)
Lemma multiply_xtime (x b : Z) :
  0 <= x <= 255 -> 1 <= b <= 255 ->
  multiply x b = Num (xtimes (Z.to_nat (logOf b)) x).
Proof.
  intros Hx Hb.
  destruct (Z.eq_dec x 0) as [->|Hnz]; [now rewrite xtimes_zero|].
  destruct (multiply_nonzero x b ltac:(lia) Hb) as (-> & _).
  destruct (logOf_spec x ltac:(lia)) as (_ & Hlx & _ & Hex).
  destruct (logOf_spec b Hb) as (_ & Hlb & _).
  rewrite <- Hex at 2.
  rewrite xtimes_expOf by lia.
  now rewrite Z2Nat.id by lia.
Qed.

(** X9: [multiply] distributes over [add] on field elements. *)
Theorem multiply_distributes (a b c : Z) :
  0 <= a <= 255 -> 0 <= b <= 255 -> 0 <= c <= 255 ->
  exists ab ac,
    multiply a b = Num ab /\ multiply a c = Num ac
    /\ multiply a (GaloisField.add b c) = Num (GaloisField.add ab ac).
Proof.
  intros Ha Hb Hc. unfold GaloisField.add.
  destruct (Z.eq_dec a 0) as [->|Hnz].
  { exists 0, 0. repeat split. }
  pose proof (xor_closed b c Hb Hc) as Hbc.
  rewrite (multiply_sym a b), (multiply_sym a c), (multiply_sym a (xor b c)).
  rewrite !multiply_xtime by lia.
  eexists _, _. split; [reflexivity|]. split; [reflexivity|].
  now rewrite xtimes_linear.
Qed.

Lemma multiply_distributes_witness :
  exists ab ac,
    multiply 3 5 = Num ab /\ multiply 3 7 = Num ac
    /\ multiply 3 (GaloisField.add 5 7) = Num (GaloisField.add ab ac).
Proof. apply (multiply_distributes 3 5 7); lia. Defined.

End FieldAlgebra.

(* ===================================================================== *)
(** ** BitBuffer: invariants, alignment, extraction and rendering *)

Section Stream.
Import Js.

Lemma set_bytesOk (a : list Z) (i v : Z) : bytesOk a -> bytesOk (set a i v).
Proof.
  intros Ha. unfold set. destruct (0 <=? i); [|exact Ha].
  apply Forall_insert; [exact Ha|].
  apply Z.mod_pos_bound. lia.
Qed.

Lemma Uint8Array_bytesOk (n : Z) : bytesOk (Uint8Array n).
Proof. apply Forall_replicate. lia. Qed.

Lemma ensureCapacity_bytesOk (bitsToAdd : Z) (b : BitBuffer) :
  bytesOk (buffer b) -> bytesOk (buffer (ensureCapacity bitsToAdd b)).
Proof.
  intros Hb. unfold ensureCapacity.
  destruct (length b <? bytePointer b + ceilDiv8 bitsToAdd); [|exact Hb].
  apply Forall_app. split; [exact Hb | apply Uint8Array_bytesOk].
Qed.

Lemma appendLoop_bytesOk (value : Z) (n : nat) :
  forall b, bytesOk (buffer b) -> bytesOk (buffer (appendLoop value n b)).
Proof.
  induction n as [|n IH]; intros b Hb; cbn [appendLoop]; [exact Hb|].
  apply IH. rewrite writeBit_buffer. apply set_bytesOk, Hb.
Qed.

(** [appendBits] keeps the storage an array of bytes, whatever its
    arguments. *)
Lemma appendBits_bytesOk (value : Z) (len : option Z) (b : BitBuffer) :
  bytesOk (buffer b) -> bytesOk (buffer (appendBits value len b)).
Proof.
  intros Hb. unfold appendBits.
  apply appendLoop_bytesOk.
  match goal with
  | |- context [ensureCapacity ?l b] => pose proof (ensureCapacity_bytesOk l b Hb) as Hc
  end.
  match goal with
  | |- context [if ?c then _ else _] => destruct c; exact Hc
  end.
Qed.

Lemma fillLoop_bytesOk (n : nat) :
  forall i b, bytesOk (buffer b) -> bytesOk (buffer (fillLoop n i b)).
Proof.
  induction n as [|n IH]; intros i b Hb; cbn [fillLoop]; [exact Hb|].
  destruct (bytePointer b <? length b); [|exact Hb].
  apply IH. cbn [buffer]. apply set_bytesOk, Hb.
Qed.

Lemma fill_bytesOk (b : BitBuffer) : bytesOk (buffer b) -> bytesOk (buffer (fill b)).
Proof.
  intros Hb. unfold fill. apply fillLoop_bytesOk. now rewrite padByte_buffer.
Qed.

(** Two byte arrays of the same size that show the same bits are equal. *)
Lemma bytes_ext (a a' : list Z) :
  List.length a = List.length a' -> bytesOk a -> bytesOk a' ->
  (forall k, bitAt a k = bitAt a' k) -> a = a'.
Proof.
  intros Hlen Ha Ha' Hbits.
  apply list_eq. intros i.
  destruct (a !! i) as [x|] eqn:Ex.
  - pose proof (lookup_lt_Some _ _ _ Ex) as Hi.
    destruct (lookup_lt_is_Some_2 a' i ltac:(lia)) as [x' Ex'].
    rewrite Ex'. f_equal.
    pose proof (proj1 (Forall_lookup _ _) Ha i x Ex) as Hx. cbv beta in Hx.
    pose proof (proj1 (Forall_lookup _ _) Ha' i x' Ex') as Hx'. cbv beta in Hx'.
    apply Z.bits_inj'. intros n Hn.
    destruct (Z.lt_ge_cases n 8) as [Hlt|Hge].
    + specialize (Hbits (8 * Z.of_nat i + (7 - n))).
      unfold bitAt, get in Hbits.
      replace ((8 * Z.of_nat i + (7 - n)) / 8) with (Z.of_nat i) in Hbits
        by (rewrite Z.add_comm, Z.mul_comm, Z.div_add by lia;
            rewrite Z.div_small by lia; lia).
      replace ((8 * Z.of_nat i + (7 - n)) mod 8) with (7 - n) in Hbits
        by (rewrite Z.add_comm, Z.mul_comm, Z.mod_add by lia;
            rewrite Z.mod_small by lia; lia).
      destruct (Z.leb_spec 0 (Z.of_nat i)); [|lia].
      rewrite Nat2Z.id, Ex, Ex' in Hbits. cbn [default from_option] in Hbits. unfold id in Hbits.
      replace (7 - (7 - n)) with n in Hbits by lia. exact Hbits.
    + rewrite <- (Z.mod_small x (2 ^ 8)), <- (Z.mod_small x' (2 ^ 8))
        by (change (2 ^ 8) with 256; lia).
      now rewrite !Z.mod_pow2_bits_high by lia.
  - apply lookup_ge_None_1 in Ex. symmetry. apply lookup_ge_None_2. lia.
Qed.

Lemma bitAt_outside (a : list Z) (k : Z) :
  8 * Z.of_nat (List.length a) <= k -> bitAt a k = false.
Proof.
  intros Hk. unfold bitAt, get.
  assert (Z.of_nat (List.length a) <= k / 8) by (apply Z.div_le_lower_bound; lia).
  destruct (Z.leb_spec 0 (k / 8)); [|apply Z.bits_0].
  rewrite lookup_ge_None_2 by lia. apply Z.bits_0.
Qed.

(** An omitted length, and the length 0, stand for the bit width. *)
Lemma appendBits_auto_eq (value : Z) (b : BitBuffer) :
  0 <= value ->
  appendBits value None b = appendBits value (Some (bitWidth value)) b
  /\ appendBits value (Some 0) b = appendBits value (Some (bitWidth value)) b.
Proof.
  intros Hv. pose proof (bitWidth_pos value) as Hw.
  unfold appendBits. rewrite (realLength_bitWidth value Hv).
  destruct (Z.eqb_spec (bitWidth value) 0); [lia|].
  change (0 =? 0) with true. cbv iota.
  split; reflexivity.
Qed.

(** X10: without a length, and with the length 0, [appendBits] writes the
    value in its minimal width (one bit for 0): the cursor advances by the
    bit width, and for a positive value the bit under the old cursor, when
    the storage holds it, is set, so no padding zero comes first. *)
Theorem appendBits_auto_length (value : Z) (b : BitBuffer) :
  0 <= value -> wellFormed b ->
  appendBits value (Some 0) b = appendBits value None b
  /\ cursor (appendBits value None b) = cursor b + bitWidth value
  /\ wellFormed (appendBits value None b)
  /\ (0 < value -> cursor b < 8 * length (appendBits value None b) ->
      bitAt (buffer (appendBits value None b)) (cursor b) = true).
Proof.
  intros Hv Hwf. pose proof (bitWidth_pos value) as Hw.
  destruct (appendBits_auto_eq value b Hv) as [-> ->].
  destruct (appendBits_pointers value (bitWidth value) b Hv ltac:(lia) Hwf) as (Hc & Hwf' & _).
  split; [reflexivity|]. split; [exact Hc|]. split; [exact Hwf'|].
  intros Hpos Hin.
  rewrite appendBits_bits by (assumption || lia).
  destruct (Z.leb_spec (cursor b) (cursor b)); [|lia].
  destruct (Z.ltb_spec (cursor b) (cursor b + bitWidth value)); [|lia].
  destruct (Z.ltb_spec (cursor b) (8 * length (appendBits value (Some (bitWidth value)) b)));
    [|lia].
  replace (cursor b + bitWidth value - 1 - cursor b) with (Z.log2 value)
    by (unfold bitWidth; destruct (Z.eqb_spec value 0); lia).
  rewrite Z.bit_log2 by lia. apply orb_true_r.
Qed.

Lemma appendBits_auto_length_witness :
  appendBits 7 (Some 0) (new 1) = appendBits 7 None (new 1)
  /\ cursor (appendBits 7 None (new 1)) = 3
  /\ bitAt (buffer (appendBits 7 None (new 1))) 0 = true.
Proof.
  destruct (appendBits_auto_length 7 (new 1)) as (He & Hc & _ & Hb).
  - lia.
  - unfold wellFormed. cbn. lia.
  - split; [exact He|]. split; [exact Hc|].
    apply Hb; [lia | vm_compute; reflexivity].
Defined.

Lemma padByte_wellFormed (b : BitBuffer) :
  wellFormed b ->
  wellFormed (padByte b) /\ bitPointer (padByte b) = 0
  /\ cursor (padByte b) = 8 * ((cursor b + 7) / 8).
Proof.
  intros [Hbp Hbit]. unfold padByte, wellFormed, cursor.
  destruct (Z.ltb_spec 0 (bitPointer b)); cbn [bytePointer bitPointer].
  - repeat split; try lia.
    replace (8 * bytePointer b + bitPointer b + 7)
      with (bitPointer b - 1 + (bytePointer b + 1) * 8) by lia.
    rewrite Z.div_add, Z.div_small by lia. lia.
  - assert (E : bitPointer b = 0) by lia. rewrite E.
    repeat split; try lia.
    replace (8 * bytePointer b + 0 + 7) with (7 + bytePointer b * 8) by lia.
    rewrite Z.div_add by lia. change (7 / 8) with 0. lia.
Qed.

Lemma padByte_clean (b : BitBuffer) : wellFormed b -> clean b -> clean (padByte b).
Proof.
  intros Hwf Hclean k Hk. rewrite padByte_buffer. apply Hclean.
  destruct (padByte_wellFormed b Hwf) as (_ & _ & Hc).
  pose proof (Z.div_mod (cursor b + 7) 8 ltac:(lia)).
  pose proof (Z.mod_pos_bound (cursor b + 7) 8 ltac:(lia)).
  lia.
Qed.

(** X11: [padByte] rounds the cursor up to the next byte boundary and
    leaves it there if it is on one; it changes no stored byte nor the
    bytes [toArray] returns, and doing it twice is doing it once. *)
Theorem padByte_aligns (b : BitBuffer) :
  wellFormed b ->
  cursor (padByte b) = 8 * ((cursor b + 7) / 8)
  /\ cursor b <= cursor (padByte b) < cursor b + 8
  /\ bitPointer (padByte b) = 0
  /\ buffer (padByte b) = buffer b
  /\ toArray (padByte b) = toArray b
  /\ padByte (padByte b) = padByte b.
Proof.
  intros Hwf.
  destruct (padByte_wellFormed b Hwf) as (Hwf' & Hbit & Hc).
  split; [exact Hc|].
  split.
  { pose proof (Z.div_mod (cursor b + 7) 8 ltac:(lia)).
    pose proof (Z.mod_pos_bound (cursor b + 7) 8 ltac:(lia)). lia. }
  split; [exact Hbit|].
  split; [apply padByte_buffer|].
  split.
  - destruct Hwf as [Hbp Hb8]. unfold toArray, padByte.
    destruct (Z.ltb_spec 0 (bitPointer b)); cbn [buffer bytePointer bitPointer].
    + change (0 <? 0) with false. cbv iota. f_equal. lia.
    + destruct (Z.ltb_spec 0 (bitPointer b)); [lia | reflexivity].
  - unfold padByte at 1. rewrite Hbit. reflexivity.
Qed.

Lemma padByte_aligns_witness :
  cursor (padByte (appendBits 5 (Some 3) (new 2))) = 8
  /\ buffer (padByte (appendBits 5 (Some 3) (new 2))) = [160; 0]
  /\ padByte (padByte (appendBits 5 (Some 3) (new 2))) = padByte (appendBits 5 (Some 3) (new 2)).
Proof.
  destruct (padByte_aligns (appendBits 5 (Some 3) (new 2))) as (Hc & _ & _ & Hb & _ & Hi).
  - unfold wellFormed. vm_compute. repeat split; discriminate.
  - split; [exact Hc|]. split; [exact Hb | exact Hi].
Defined.

Lemma fillLoop_bytePointer (n : nat) :
  forall i b, bytePointer b <= bytePointer (fillLoop n i b).
Proof.
  induction n as [|n IH]; intros i b; cbn [fillLoop]; [lia|].
  destruct (bytePointer b <? length b); [|lia].
  etransitivity; [|apply IH]. cbn [bytePointer]. lia.
Qed.

Lemma fill_wellFormed (b : BitBuffer) :
  wellFormed b -> wellFormed (fill b) /\ bitPointer (fill b) = 0 /\ clean (fill b).
Proof.
  intros Hwf.
  destruct (padByte_wellFormed b Hwf) as ([Hbp _] & Hbit & _).
  assert (Hb0 : bitPointer (fill b) = 0).
  { unfold fill. now rewrite (proj2 (fillLoop_length _ _ _)). }
  assert (Hbp' : 0 <= bytePointer (fill b)).
  { unfold fill. etransitivity; [exact Hbp | apply fillLoop_bytePointer]. }
  split; [unfold wellFormed; lia|]. split; [exact Hb0|].
  intros k Hk. apply bitAt_outside.
  pose proof (fill_full b) as Hfull. unfold cursor, length in *. lia.
Qed.

(** X12: every buffer built from a new one by appending values that are
    not negative (with a length that covers them, or with none), by
    [padByte] and by [fill] keeps the invariants of the data model: the bit
    pointer is in [0,7] and the byte pointer is not negative, the storage
    holds bytes, and no bit is set from the cursor on. *)
Theorem built_invariant (b : BitBuffer) :
  built b -> wellFormed b /\ bytesOk (buffer b) /\ clean b.
Proof.
  induction 1 as [n | value len b Hb IH Hv Hw | value b Hb IH Hv | b Hb IH | b Hb IH].
  - split; [unfold wellFormed; cbn; lia|].
    split; [apply Uint8Array_bytesOk | apply new_clean].
  - destruct IH as (Hwf & Hbytes & Hclean).
    pose proof (bitWidth_pos value).
    destruct (appendBits_pointers value len b Hv ltac:(lia) Hwf) as (_ & Hwf' & _).
    split; [exact Hwf'|]. split; [now apply appendBits_bytesOk|].
    now apply appendBits_clean.
  - destruct IH as (Hwf & Hbytes & Hclean).
    pose proof (bitWidth_pos value).
    split; [|split; [now apply appendBits_bytesOk|]];
      rewrite (proj1 (appendBits_auto_eq value b Hv)).
    + now destruct (appendBits_pointers value (bitWidth value) b Hv ltac:(lia) Hwf) as (_ & ? & _).
    + apply appendBits_clean; assumption || lia.
  - destruct IH as (Hwf & Hbytes & Hclean).
    split; [apply padByte_wellFormed, Hwf|].
    split; [now rewrite padByte_buffer | now apply padByte_clean].
  - destruct IH as (Hwf & Hbytes & Hclean).
    split; [apply fill_wellFormed, Hwf|].
    split; [now apply fill_bytesOk | apply fill_wellFormed, Hwf].
Qed.

Lemma built_invariant_witness :
  wellFormed (padByte (appendBits 5 (Some 3) (new 2)))
  /\ bytesOk (buffer (padByte (appendBits 5 (Some 3) (new 2))))
  /\ clean (padByte (appendBits 5 (Some 3) (new 2))).
Proof.
  apply (built_invariant (padByte (appendBits 5 (Some 3) (new 2)))).
  apply built_padByte, built_append; [apply built_new | lia | vm_compute; discriminate].
Defined.

Lemma ceilDiv8_covers (len : Z) : len <= 8 * ceilDiv8 len.
Proof.
  unfold ceilDiv8.
  pose proof (Z.div_mod (len + 7) 8 ltac:(lia)).
  pose proof (Z.mod_pos_bound (len + 7) 8 ltac:(lia)).
  lia.
Qed.

(** X13: an append that starts on a byte boundary, or more generally whose
    bits end within the [ceil(length / 8)] bytes counted from the cursor
    byte, loses nothing: on a clean stream the whole window of [length]
    bits lies inside the storage and holds the lowest [length] bits of the
    value, most significant first. *)
Theorem appendBits_lossless (value len : Z) (b : BitBuffer) :
  0 <= value -> bitWidth value <= len -> wellFormed b -> clean b ->
  bitPointer b = 0 \/ bitPointer b + len <= 8 * ceilDiv8 len ->
  cursor (appendBits value (Some len) b) <= 8 * length (appendBits value (Some len) b)
  /\ forall k, cursor b <= k < cursor b + len ->
               bitAt (buffer (appendBits value (Some len) b)) k
               = Z.testbit value (cursor b + len - 1 - k).
Proof.
  intros Hv Hw Hwf Hclean Hfit.
  pose proof (bitWidth_pos value).
  assert (Hfit' : bitPointer b + len <= 8 * ceilDiv8 len).
  { destruct Hfit as [->|?]; [|assumption]. pose proof (ceilDiv8_covers len). lia. }
  pose proof (appendBits_fits value len b Hv ltac:(lia) Hwf Hfit') as Hin.
  destruct (appendBits_pointers value len b Hv ltac:(lia) Hwf) as (Hc & _).
  split; [exact Hin|].
  intros k Hk.
  apply (appendBits_clean value len b Hv Hwf Hw Hclean); lia.
Qed.

Lemma appendBits_lossless_witness :
  cursor (appendBits 5 (Some 11) (new 1)) <= 8 * length (appendBits 5 (Some 11) (new 1))
  /\ bitAt (buffer (appendBits 5 (Some 11) (new 1))) 10 = Z.testbit 5 0.
Proof.
  destruct (appendBits_lossless 5 11 (new 1)) as (Hin & Hbits).
  - lia.
  - vm_compute. discriminate.
  - unfold wellFormed. cbn. lia.
  - apply new_clean.
  - left. reflexivity.
  - split; [exact Hin|]. apply (Hbits 10).
    unfold cursor. cbn [new bytePointer bitPointer]. lia.
Defined.

Lemma bitWidth_bound (value len : Z) :
  0 <= value -> bitWidth value <= len -> value < 2 ^ len.
Proof.
  intros Hv Hw. unfold bitWidth in Hw.
  destruct (Z.eqb_spec value 0) as [->|Hnz]; [apply Z.pow_pos_nonneg; lia|].
  apply Z.log2_lt_pow2; lia.
Qed.

Lemma bound_bitWidth (value len : Z) :
  0 <= value -> 0 < len -> value < 2 ^ len -> bitWidth value <= len.
Proof.
  intros Hv Hl Hb. unfold bitWidth.
  destruct (Z.eqb_spec value 0) as [->|Hnz]; [lia|].
  assert (Z.log2 value < len) by (apply Z.log2_lt_pow2; lia). lia.
Qed.

(** The bits of two values put side by side. *)
Lemma testbit_concat (v1 v2 l2 j : Z) :
  0 <= v2 < 2 ^ l2 -> 0 <= l2 -> 0 <= j ->
  Z.testbit (v1 * 2 ^ l2 + v2) j
  = if j <? l2 then Z.testbit v2 j else Z.testbit v1 (j - l2).
Proof.
  intros Hv2 Hl2 Hj.
  destruct (Z.ltb_spec j l2).
  - rewrite <- (Z.mod_pow2_bits_low (v1 * 2 ^ l2 + v2) l2 j) by lia.
    rewrite Z.add_comm, Z.mod_add by lia.
    now rewrite Z.mod_small by lia.
  - replace j with ((j - l2) + l2) at 1 by lia.
    rewrite <- Z.div_pow2_bits by lia.
    rewrite Z.div_add_l by lia.
    rewrite (Z.div_small v2) by lia. now rewrite Z.add_0_r.
Qed.

Lemma appendBits_no_growth (value len : Z) (b : BitBuffer) :
  0 <= value -> 0 < len -> wellFormed b -> cursor b + len <= 8 * length b ->
  length (appendBits value (Some len) b) = length b.
Proof.
  intros Hv Hl Hwf Hfit.
  destruct (appendBits_pointers value len b Hv Hl Hwf) as (_ & _ & ->).
  destruct Hwf as [Hbp Hbit]. unfold cursor, ceilDiv8 in *.
  pose proof (Z.div_mod (len + 7) 8 ltac:(lia)).
  pose proof (Z.mod_pos_bound (len + 7) 8 ltac:(lia)).
  lia.
Qed.

(** X14: two appends in a row are one append of the two values put side
    by side: when the bits fit the storage as it is,
    [appendBits(v2, l2)] after [appendBits(v1, l1)] leaves the buffer in
    the state of [appendBits(v1 * 2^l2 + v2, l1 + l2)]. *)
Theorem appendBits_compose (v1 l1 v2 l2 : Z) (b : BitBuffer) :
  0 <= v1 -> bitWidth v1 <= l1 -> 0 <= v2 -> bitWidth v2 <= l2 ->
  wellFormed b -> bytesOk (buffer b) ->
  cursor b + l1 + l2 <= 8 * length b ->
  appendBits v2 (Some l2) (appendBits v1 (Some l1) b)
  = appendBits (v1 * 2 ^ l2 + v2) (Some (l1 + l2)) b.
Proof.
  intros Hv1 Hw1 Hv2 Hw2 Hwf Hbytes Hfit.
  pose proof (bitWidth_pos v1). pose proof (bitWidth_pos v2).
  pose proof (bitWidth_bound v1 l1 Hv1 Hw1) as Hb1.
  pose proof (bitWidth_bound v2 l2 Hv2 Hw2) as Hb2.
  assert (Hpow : 2 ^ (l1 + l2) = 2 ^ l1 * 2 ^ l2) by (apply Z.pow_add_r; lia).
  assert (Hv : 0 <= v1 * 2 ^ l2 + v2) by nia.
  assert (Hw : bitWidth (v1 * 2 ^ l2 + v2) <= l1 + l2).
  { apply bound_bitWidth; [exact Hv | lia | nia]. }
  set (b1 := appendBits v1 (Some l1) b).
  destruct (appendBits_pointers v1 l1 b Hv1 ltac:(lia) Hwf) as (Hc1 & Hwf1 & _).
  pose proof (appendBits_no_growth v1 l1 b Hv1 ltac:(lia) Hwf ltac:(lia)) as Hl1.
  fold b1 in Hc1, Hwf1, Hl1.
  destruct (appendBits_pointers v2 l2 b1 Hv2 ltac:(lia) Hwf1) as (Hc2 & Hwf2 & _).
  pose proof (appendBits_no_growth v2 l2 b1 Hv2 ltac:(lia) Hwf1 ltac:(lia)) as Hl2.
  destruct (appendBits_pointers _ (l1 + l2) b Hv ltac:(lia) Hwf) as (Hc & Hwf' & _).
  pose proof (appendBits_no_growth _ (l1 + l2) b Hv ltac:(lia) Hwf ltac:(lia)) as Hl.
  assert (Hbuf : buffer (appendBits v2 (Some l2) b1)
                 = buffer (appendBits (v1 * 2 ^ l2 + v2) (Some (l1 + l2)) b)).
  { apply bytes_ext.
    - unfold length in *. lia.
    - apply appendBits_bytesOk, appendBits_bytesOk, Hbytes.
    - apply appendBits_bytesOk, Hbytes.
    - intros k.
      rewrite (appendBits_bits v2 l2 b1) by assumption.
      unfold b1 at 1. rewrite (appendBits_bits v1 l1 b) by assumption.
      rewrite (appendBits_bits _ (l1 + l2) b) by assumption.
      fold b1. rewrite Hc1, Hl2, Hl1, Hl, <- orb_assoc. f_equal.
      destruct (Z.ltb_spec k (8 * length b)); [|now rewrite !andb_false_r].
      rewrite !andb_true_r.
      destruct (Z.leb_spec (cursor b) k); cbn [andb orb];
        [|destruct (Z.leb_spec (cursor b + l1) k); [lia | reflexivity]].
      destruct (Z.ltb_spec k (cursor b + (l1 + l2))); cbn [andb];
        [|destruct (Z.ltb_spec k (cursor b + l1)); [lia|];
          destruct (Z.ltb_spec k (cursor b + l1 + l2)); [lia|];
          now rewrite andb_false_r].
      rewrite testbit_concat by lia.
      destruct (Z.ltb_spec k (cursor b + l1)); cbn [andb orb].
      + destruct (Z.leb_spec (cursor b + l1) k); [lia|]. cbn [andb]. rewrite orb_false_r.
        destruct (Z.ltb_spec (cursor b + (l1 + l2) - 1 - k) l2); [lia|].
        f_equal. lia.
      + destruct (Z.leb_spec (cursor b + l1) k); [|lia].
        destruct (Z.ltb_spec k (cursor b + l1 + l2)); [|lia]. cbn [andb].
        destruct (Z.ltb_spec (cursor b + (l1 + l2) - 1 - k) l2); [|lia].
        f_equal. lia. }
  destruct Hwf2 as [Hbp2 Hbit2], Hwf' as [Hbp' Hbit'].
  unfold cursor in Hc2, Hc, Hc1.
  destruct (appendBits v2 (Some l2) b1) as [buf2 bp2 bit2],
           (appendBits (v1 * 2 ^ l2 + v2) (Some (l1 + l2)) b) as [buf' bp' bit'].
  cbn [buffer bytePointer bitPointer] in *.
  subst buf2. f_equal; lia.
Qed.

Lemma appendBits_compose_witness :
  appendBits 6 (Some 3) (appendBits 5 (Some 3) (new 1))
  = appendBits (5 * 2 ^ 3 + 6) (Some (3 + 3)) (new 1).
Proof.
  apply (appendBits_compose 5 3 6 3 (new 1)).
  - lia.
  - vm_compute. discriminate.
  - lia.
  - vm_compute. discriminate.
  - unfold wellFormed. cbn. lia.
  - apply Uint8Array_bytesOk.
  - vm_compute. discriminate.
Defined.

(** X15: [toArray] never returns more bytes than the storage has; on a
    stream whose cursor lies inside the storage it returns the first
    [ceil(cursor / 8)] bytes, so a partly written last byte is included; and
    after [fill] it returns the whole storage. *)
Theorem toArray_extract (b : BitBuffer) :
  (List.length (toArray b) <= List.length (buffer b))%nat
  /\ (wellFormed b -> cursor b <= 8 * length b ->
      toArray b = take (Z.to_nat ((cursor b + 7) / 8)) (buffer b)
      /\ Z.of_nat (List.length (toArray b)) = (cursor b + 7) / 8)
  /\ toArray (fill b) = buffer (fill b).
Proof.
  split; [unfold toArray; rewrite length_take; lia|].
  split.
  - intros [Hbp Hbit] Hin. unfold toArray, cursor, length in *.
    assert (E : bytePointer b + (if 0 <? bitPointer b then 1 else 0)
                = (8 * bytePointer b + bitPointer b + 7) / 8).
    { destruct (Z.ltb_spec 0 (bitPointer b)).
      - replace (8 * bytePointer b + bitPointer b + 7)
          with (bitPointer b - 1 + (bytePointer b + 1) * 8) by lia.
        rewrite Z.div_add, Z.div_small by lia. lia.
      - replace (8 * bytePointer b + bitPointer b + 7)
          with (7 + bytePointer b * 8) by lia.
        rewrite Z.div_add by lia. change (7 / 8) with 0. lia. }
    rewrite E. split; [reflexivity|].
    rewrite length_take.
    pose proof (Z.div_mod (8 * bytePointer b + bitPointer b + 7) 8 ltac:(lia)).
    pose proof (Z.mod_pos_bound (8 * bytePointer b + bitPointer b + 7) 8 ltac:(lia)).
    lia.
  - pose proof (fill_full b) as Hfull. unfold toArray, length in *.
    apply take_ge.
    destruct (0 <? bitPointer (fill b)); lia.
Qed.

Lemma toArray_extract_witness :
  toArray (appendBits 5 (Some 3) (appendBits 255 (Some 8) (new 10))) = [255; 160]
  /\ Z.of_nat (List.length (toArray (appendBits 5 (Some 3) (appendBits 255 (Some 8) (new 10))))) = 2.
Proof.
  destruct (toArray_extract (appendBits 5 (Some 3) (appendBits 255 (Some 8) (new 10))))
    as (_ & H & _).
  apply H.
  - unfold wellFormed. vm_compute. repeat split; discriminate.
  - vm_compute. discriminate.
Defined.

Lemma string_app_cons (c : ascii) (s1 s2 : string) :
  (String c s1 +:+ s2)%string = String c (s1 +:+ s2).
Proof. reflexivity. Qed.

Lemma string_app_nil_r (s : string) : (s +:+ EmptyString)%string = s.
Proof.
  induction s as [|c s IH]; [reflexivity|].
  rewrite string_app_cons. f_equal. exact IH.
Qed.

Lemma string_app_assoc (s1 s2 s3 : string) :
  ((s1 +:+ s2) +:+ s3 = s1 +:+ (s2 +:+ s3))%string.
Proof.
  induction s1 as [|c s1 IH]; [reflexivity|].
  rewrite !string_app_cons. f_equal. exact IH.
Qed.

Lemma string_app_length (s1 s2 : string) :
  String.length (s1 +:+ s2) = (String.length s1 + String.length s2)%nat.
Proof.
  induction s1 as [|c s1 IH]; [reflexivity|].
  rewrite string_app_cons. cbn [String.length]. now rewrite IH.
Qed.

(** The loop of [toString], without the blanks, appends the rendering of
    the bytes to what it has. *)
Lemma toString_fold (a : list Z) :
  forall acc,
    fold_left (fun str byte => (str +:+ binary8 byte +:+ EmptyString)%string) a acc
    = (acc +:+ render a)%string.
Proof.
  induction a as [|x a IH]; intros acc; cbn [fold_left render].
  - now rewrite string_app_nil_r.
  - now rewrite IH, string_app_nil_r, string_app_assoc.
Qed.

Lemma toString_render (b : BitBuffer) : toString false b = render (buffer b).
Proof. unfold toString. now rewrite toString_fold. Qed.

Lemma binary8_length (x : Z) : String.length (binary8 x) = 8%nat.
Proof. reflexivity. Qed.

Lemma render_length (a : list Z) : String.length (render a) = (8 * List.length a)%nat.
Proof.
  induction a as [|x a IH]; cbn [render List.length]; [reflexivity|].
  rewrite string_app_length, binary8_length, IH. lia.
Qed.

Lemma bitAt_cons (x : Z) (a : list Z) (k : Z) :
  0 <= k -> bitAt (x :: a) (k + 8) = bitAt a k.
Proof.
  intros Hk. unfold bitAt, get.
  replace ((k + 8) / 8) with (k / 8 + 1)
    by (replace (k + 8) with (k + 1 * 8) by lia; now rewrite Z.div_add by lia).
  replace ((k + 8) mod 8) with (k mod 8)
    by (replace (k + 8) with (k + 1 * 8) by lia; now rewrite Z.mod_add by lia).
  assert (0 <= k / 8) by (apply Z.div_pos; lia).
  destruct (Z.leb_spec 0 (k / 8 + 1)); [|lia].
  destruct (Z.leb_spec 0 (k / 8)); [|lia].
  replace (Z.to_nat (k / 8 + 1)) with (S (Z.to_nat (k / 8))) by lia.
  reflexivity.
Qed.

Lemma render_get (a : list Z) :
  forall k : nat, (k < 8 * List.length a)%nat ->
    String.get k (render a)
    = Some (if bitAt a (Z.of_nat k) then "1" else "0")%char.
Proof.
  induction a as [|x a IH]; intros k Hk; cbn [render List.length] in *; [lia|].
  destruct (Nat.lt_ge_cases k 8) as [Hlt|Hge].
  - rewrite <- append_correct1 by (rewrite binary8_length; exact Hlt).
    do 8 (destruct k as [|k]; [reflexivity|]). lia.
  - replace k with ((k - 8) + String.length (binary8 x))%nat at 1
      by (rewrite binary8_length; lia).
    rewrite <- append_correct2, IH by lia.
    replace (Z.of_nat k) with (Z.of_nat (k - 8) + 8) by lia.
    now rewrite bitAt_cons by lia.
Qed.

(** X16: the text [toString()] returns has eight digits for each byte of
    the storage, and its [k]-th character is the [k]-th bit of the stream,
    most significant bit of each byte first. *)
Theorem toString_bits (b : BitBuffer) (k : nat) :
  String.length (toString false b) = (8 * List.length (buffer b))%nat
  /\ ((k < 8 * List.length (buffer b))%nat ->
      String.get k (toString false b)
      = Some (if bitAt (buffer b) (Z.of_nat k) then "1" else "0")%char).
Proof.
  rewrite toString_render. split; [apply render_length|].
  intros Hk. now apply render_get.
Qed.

Lemma toString_bits_witness :
  String.get 2 (toString false (appendBits 5 (Some 3) (new 1)))
  = Some (if bitAt (buffer (appendBits 5 (Some 3) (new 1))) 2 then "1" else "0")%char.
Proof.
  apply (toString_bits (appendBits 5 (Some 3) (new 1)) 2).
  vm_compute. lia.
Defined.

(** X17: during an append the byte pointer never passes the end of the
    storage: after [appendBits] it is at most the length. *)
Theorem appendBits_bytePointer_bound (value len : Z) (b : BitBuffer) :
  0 <= value -> 0 < len -> wellFormed b ->
  bytePointer (appendBits value (Some len) b) <= length (appendBits value (Some len) b).
Proof. apply appendBits_bytePointer_le_length. Qed.

Lemma appendBits_bytePointer_bound_witness :
  bytePointer (appendBits 255 (Some 8) (appendBits 15 (Some 4) (new 1)))
  <= length (appendBits 255 (Some 8) (appendBits 15 (Some 4) (new 1))).
Proof.
  apply (appendBits_bytePointer_bound 255 8 (appendBits 15 (Some 4) (new 1))).
  - lia.
  - lia.
  - unfold wellFormed. vm_compute. repeat split; discriminate.
Defined.

End Stream.

(* ===================================================================== *)
(** ** Encoding: errors and the bits of the segment *)

Section Segment.

Lemma acceptedRange_everywhere (c : ascii) : acceptedRangeAt c = true.
Proof. destruct c as [[] [] [] [] [] [] [] []]; vm_compute; reflexivity. Qed.

Lemma accepted_value (c : ascii) : accepted c = true -> 1 <= charValue c <= 44.
Proof.
  intros Hc. pose proof (acceptedRange_everywhere c) as Hr.
  unfold acceptedRangeAt in Hr. rewrite Hc in Hr. cbn [negb orb] in Hr.
  apply andb_prop in Hr as [H1 H2]. apply Z.leb_le in H1, H2. lia.
Qed.

(** The character loop stops at the first character that is not accepted
    and names it. *)
Lemma encodeGroups_error (data : list ascii) :
  forall encoded,
    match List.find (fun c => negb (accepted c)) data with
    | Some c => encodeGroups data encoded = Throw (NonAlphanumericCharacter (char c))
    | None => isOk (encodeGroups data encoded) = true
    end.
Proof.
  induction data as [|a|a b l IH] using list_pair_ind; intros encoded.
  - reflexivity.
  - cbn [encodeGroups List.find]. unfold accepted.
    destruct (falsy (ALPHANUMERIC_ENCODING_TABLE !! char a)); reflexivity.
  - cbn [encodeGroups List.find]. unfold accepted at 1 2.
    destruct (falsy (ALPHANUMERIC_ENCODING_TABLE !! char a)); [reflexivity|].
    destruct (falsy (ALPHANUMERIC_ENCODING_TABLE !! char b)); [reflexivity|].
    cbn [negb]. apply IH.
Qed.

Lemma find_pointwise {A} (f g : A -> bool) (l : list A) :
  (forall a, f a = g a) -> List.find f l = List.find g l.
Proof.
  intros Hfg. induction l as [|a l IH]; [reflexivity|].
  cbn [List.find]. now rewrite Hfg, IH.
Qed.

(** X18: the errors of [encodeAlphanumeric], in the order it raises them:
    a version other than 1, whatever the level and the text; then a level
    other than M, whatever the text; then the first character of the text
    that is outside the alphabet or is the digit 0. No other input fails:
    in particular no text is too long. *)
Theorem encodeAlphanumeric_errors (data : string) (version : Z) (level : ErrorCorrectionLevel) :
  (version <> 1 -> encodeAlphanumeric data version level = Throw (UnsupportedVersion version))
  /\ (level <> Level.M ->
      encodeAlphanumeric data 1 level = Throw (UnsupportedErrorCorrectionLevel level))
  /\ match firstRejected (list_ascii_of_string data) with
     | Some c => encodeAlphanumeric data 1 Level.M = Throw (NonAlphanumericCharacter (char c))
     | None => isOk (encodeAlphanumeric data 1 Level.M) = true
     end.
Proof.
  split.
  { intros Hv. unfold encodeAlphanumeric.
    destruct (Z.eqb_spec version 1); [contradiction | reflexivity]. }
  split.
  { intros Hl. unfold encodeAlphanumeric. cbn [Z.eqb Pos.eqb negb].
    destruct level; [reflexivity | contradiction | reflexivity | reflexivity]. }
  unfold firstRejected.
  rewrite <- (find_pointwise (fun c => negb (accepted c)))
    by (intros c; now rewrite accepted_alphabet).
  unfold encodeAlphanumeric.
  change (negb (1 =? 1)) with false. cbv iota.
  change (getCharacterCountIndicatorSize 1 alphanumeric) with (Ok (A := Z) 9).
  cbn [bind].
  match goal with
  | |- context [encodeGroups ?d ?e] => pose proof (encodeGroups_error d e) as He
  end.
  destruct (List.find (fun c => negb (accepted c)) (list_ascii_of_string data)) as [c|].
  - rewrite He. reflexivity.
  - match goal with
    | |- context [encodeGroups ?d ?e] => destruct (encodeGroups d e)
    end; [reflexivity | discriminate He].
Qed.

Lemma encodeAlphanumeric_errors_witness :
  encodeAlphanumeric "AC-42" 2 Level.M = Throw (UnsupportedVersion 2)
  /\ encodeAlphanumeric "AC-42" 1 Level.Q = Throw (UnsupportedErrorCorrectionLevel Level.Q)
  /\ encodeAlphanumeric "ab" 1 Level.M = Throw (NonAlphanumericCharacter "a").
Proof.
  split; [apply (encodeAlphanumeric_errors "AC-42" 2 Level.M); discriminate|].
  split; [apply (encodeAlphanumeric_errors "AC-42" 1 Level.Q); discriminate|].
  apply (encodeAlphanumeric_errors "ab" 1 Level.M).
Defined.

Lemma bitsOf_length (n : nat) (v : Z) : List.length (bitsOf n v) = n.
Proof. unfold bitsOf. now rewrite length_fmap, length_seq. Qed.

Lemma bitsOf_lookup (n : nat) (v : Z) (k : nat) :
  (k < n)%nat -> bitsOf n v !! k = Some (Z.testbit v (Z.of_nat (n - 1 - k))).
Proof.
  intros Hk. unfold bitsOf.
  rewrite list_lookup_fmap, lookup_seq_lt by exact Hk. reflexivity.
Qed.

Lemma holds_new (initialSize : Z) : holds (new initialSize) [].
Proof.
  split; [unfold wellFormed; cbn; lia|]. split; [reflexivity|].
  intros k. cbn [lookup]. apply new_clean. unfold cursor. cbn. lia.
Qed.

(** An append that fits the storage adds the bits of the value to the bits
    the stream holds. *)
Lemma holds_append (value len : Z) (b : BitBuffer) (bs : list bool) :
  holds b bs -> 0 <= value -> bitWidth value <= len ->
  cursor b + len <= 8 * length b ->
  holds (appendBits value (Some len) b) (bs ++ bitsOf (Z.to_nat len) value)
  /\ length (appendBits value (Some len) b) = length b.
Proof.
  intros (Hwf & Hc & Hbits) Hv Hw Hfit.
  pose proof (bitWidth_pos value).
  destruct (appendBits_pointers value len b Hv ltac:(lia) Hwf) as (Hc' & Hwf' & _).
  pose proof (appendBits_no_growth value len b Hv ltac:(lia) Hwf Hfit) as Hl.
  split; [|exact Hl].
  split; [exact Hwf'|].
  split; [rewrite length_app, bitsOf_length; lia|].
  intros k. rewrite appendBits_bits, Hbits, Hl by assumption.
  destruct (Nat.lt_ge_cases k (List.length bs)) as [Hlt|Hge].
  - rewrite lookup_app_l by exact Hlt.
    destruct (Z.leb_spec (cursor b) (Z.of_nat k)); [lia|].
    now rewrite orb_false_r.
  - rewrite lookup_app_r, (lookup_ge_None_2 bs) by exact Hge.
    cbn [default from_option orb].
    destruct (Z.leb_spec (cursor b) (Z.of_nat k)); [|lia].
    destruct (Z.ltb_spec (Z.of_nat k) (cursor b + len)); cbn [andb].
    + destruct (Z.ltb_spec (Z.of_nat k) (8 * length b)); [|lia]. cbn [andb].
      rewrite bitsOf_lookup by lia. cbn [default from_option]. unfold id.
      f_equal. lia.
    + rewrite lookup_ge_None_2 by (rewrite bitsOf_length; lia). reflexivity.
Qed.

Lemma list_ascii_length (s : string) :
  List.length (list_ascii_of_string s) = String.length s.
Proof. induction s as [|c s IH]; cbn; [reflexivity | now rewrite IH]. Qed.

Lemma groupsBits_length (data : list ascii) :
  Z.of_nat (List.length (groupsBits data))
  = 11 * (Z.of_nat (List.length data) / 2) + 6 * (Z.of_nat (List.length data) mod 2).
Proof.
  induction data as [|a|a b l IH] using list_pair_ind.
  - reflexivity.
  - reflexivity.
  - cbn [groupsBits]. rewrite length_app, bitsOf_length, Nat2Z.inj_add, IH.
    cbn [List.length].
    replace (Z.of_nat (S (S (List.length l)))) with (Z.of_nat (List.length l) + 1 * 2) by lia.
    rewrite Z.div_add, Z.mod_add by lia. lia.
Qed.

(** On accepted characters whose groups fit the storage, the character
    loop returns, having added the bits of the groups. *)
Lemma encodeGroups_holds (data : list ascii) :
  forall (b : BitBuffer) (bs : list bool),
    forallb accepted data = true -> holds b bs ->
    cursor b + Z.of_nat (List.length (groupsBits data)) <= 8 * length b ->
    exists b', encodeGroups data b = Ok b'
               /\ holds b' (bs ++ groupsBits data) /\ length b' = length b.
Proof.
  induction data as [|a|a c l IH] using list_pair_ind; intros b bs Hacc Hh Hfit.
  - exists b. cbn [encodeGroups groupsBits]. now rewrite app_nil_r.
  - cbn [forallb] in Hacc. apply andb_prop in Hacc as [Ha _].
    pose proof (accepted_value a Ha) as Hva.
    cbn [encodeGroups groupsBits] in *.
    unfold accepted in Ha. apply negb_true_iff in Ha. rewrite Ha.
    eexists. split; [reflexivity|].
    rewrite bitsOf_length in Hfit.
    apply (holds_append (charValue a) 6 b bs Hh); [lia | | lia].
    apply bound_bitWidth; [lia | lia | change (2 ^ 6) with 64; lia].
  - cbn [forallb] in Hacc. apply andb_prop in Hacc as [Ha Hacc].
    apply andb_prop in Hacc as [Hc Hacc].
    pose proof (accepted_value a Ha) as Hva.
    pose proof (accepted_value c Hc) as Hvc.
    cbn [encodeGroups groupsBits] in *.
    unfold accepted in Ha, Hc. apply negb_true_iff in Ha, Hc. rewrite Ha, Hc.
    rewrite length_app, bitsOf_length, Nat2Z.inj_add in Hfit.
    destruct (holds_append (charValue a * 45 + charValue c) 11 b bs Hh) as [Hh1 Hl1];
      [lia | | lia |].
    { apply bound_bitWidth; [lia | lia | change (2 ^ 11) with 2048; lia]. }
    fold (charValue a) (charValue c).
    destruct (IH _ _ Hacc Hh1) as (b' & Eb' & Hh' & Hl').
    { destruct Hh1 as (_ & Hc1 & _), Hh as (_ & Hc0 & _).
      rewrite Hc1, Hl1, length_app, bitsOf_length. lia. }
    exists b'. split; [exact Eb'|].
    rewrite <- app_assoc in Hh'. split; [exact Hh' | lia].
Qed.

Lemma segmentBits_length (data : list ascii) :
  Z.of_nat (List.length (segmentBits data))
  = 17 + 11 * (Z.of_nat (List.length data) / 2) + 6 * (Z.of_nat (List.length data) mod 2).
Proof.
  unfold segmentBits.
  rewrite !length_app, !bitsOf_length, !Nat2Z.inj_add, groupsBits_length. lia.
Qed.

(** The buffer [encodeAlphanumeric] returns for a text of accepted
    characters that fits the 16 bytes. *)
Lemma encodeAlphanumeric_holds (data : string) :
  forallb accepted (list_ascii_of_string data) = true ->
  (String.length data <= 20)%nat ->
  exists b,
    encodeAlphanumeric data 1 Level.M = Ok b
    /\ length b = 16
    /\ wellFormed b /\ bitPointer b = 0
    /\ cursor b = 8 * ((Z.of_nat (List.length (segmentBits (list_ascii_of_string data))) + 7) / 8)
    /\ forall k : nat,
         bitAt (buffer b) (Z.of_nat k)
         = default false (segmentBits (list_ascii_of_string data) !! k).
Proof.
  intros Hacc Hn.
  set (chars := list_ascii_of_string data) in *.
  assert (Hlen : List.length chars = String.length data) by apply list_ascii_length.
  pose proof (groupsBits_length chars) as Hg.
  assert (Hgb : Z.of_nat (List.length (groupsBits chars)) <= 110).
  { rewrite Hg. pose proof (Z.div_mod (Z.of_nat (List.length chars)) 2 ltac:(lia)).
    pose proof (Z.mod_pos_bound (Z.of_nat (List.length chars)) 2 ltac:(lia)). lia. }
  unfold encodeAlphanumeric.
  change (negb (1 =? 1)) with false. cbv iota.
  change (getCharacterCountIndicatorSize 1 alphanumeric) with (Ok (A := Z) 9).
  cbn [bind]. unfold DATA_CODEWORDS_BY_TYPE. fold chars.
  destruct (holds_append MODE_INDICATOR_ALPHANUMERIC 4 (new 16) [] (holds_new 16))
    as [Hh1 Hl1]; [unfold MODE_INDICATOR_ALPHANUMERIC; lia | vm_compute; discriminate
                  | vm_compute; discriminate |].
  set (b1 := appendBits MODE_INDICATOR_ALPHANUMERIC (Some 4) (new 16)) in *.
  assert (Hc1 : cursor b1 = 4) by reflexivity.
  change (length (new 16)) with 16 in Hl1.
  destruct (holds_append (Z.of_nat (String.length data)) 9 b1 _ Hh1) as [Hh2 Hl2];
    [lia | apply bound_bitWidth; [lia | lia | change (2 ^ 9) with 512; lia] | lia |].
  set (b2 := appendBits (Z.of_nat (String.length data)) (Some 9) b1) in *.
  assert (Hc2 : cursor b2 = 13).
  { destruct Hh2 as (_ & -> & _). rewrite length_app, !bitsOf_length. reflexivity. }
  destruct (encodeGroups_holds chars b2 _ Hacc Hh2) as (b3 & -> & Hh3 & Hl3); [lia|].
  cbn [bind].
  assert (Hc3 : cursor b3 = 13 + Z.of_nat (List.length (groupsBits chars))).
  { destruct Hh3 as (_ & -> & _). cbn [app]. rewrite !length_app, !bitsOf_length. lia. }
  destruct (holds_append 0 4 b3 _ Hh3) as [Hh4 Hl4];
    [lia | vm_compute; discriminate | lia |].
  set (b4 := appendBits 0 (Some 4) b3) in *.
  cbn [app] in Hh4. rewrite <- !app_assoc in Hh4.
  rewrite <- Hlen in Hh4. change (Z.to_nat 4) with 4%nat in Hh4.
  change (Z.to_nat 9) with 9%nat in Hh4.
  fold (segmentBits chars) in Hh4.
  destruct Hh4 as (Hwf4 & Hc4 & Hbits4).
  destruct (padByte_wellFormed b4 Hwf4) as (Hwf5 & Hbit5 & Hc5).
  exists (padByte b4).
  split; [reflexivity|].
  split; [rewrite padByte_length; lia|].
  split; [exact Hwf5|]. split; [exact Hbit5|].
  split; [now rewrite Hc5, Hc4|].
  intros k. rewrite padByte_buffer. apply Hbits4.
Qed.

(** X19: for a text of at most 20 characters, all in the alphabet and
    none the digit 0, [encodeAlphanumeric(data, 1, 'M')] returns a 16-byte
    buffer whose bits are the mode indicator 0010, the number of
    characters in 9 bits, one 11-bit group [45 * v1 + v2] for each pair of
    characters and one 6-bit group for a last single character, and the
    terminator 0000, each most significant bit first; every later bit is
    zero and the cursor is on the next byte boundary. *)
Theorem encodeAlphanumeric_segment (data : string) :
  forallb (fun c => inAlphabet c && negb (Ascii.eqb c "0")) (list_ascii_of_string data) = true ->
  (String.length data <= 20)%nat ->
  exists b,
    encodeAlphanumeric data 1 Level.M = Ok b
    /\ length b = 16
    /\ bitPointer b = 0
    /\ 8 * bytePointer b
       = 8 * ((17 + 11 * (Z.of_nat (String.length data) / 2)
              + 6 * (Z.of_nat (String.length data) mod 2) + 7) / 8)
    /\ forall k : nat,
         bitAt (buffer b) (Z.of_nat k)
         = default false (segmentBits (list_ascii_of_string data) !! k).
Proof.
  intros Hacc Hn.
  rewrite (forallb_pointwise _ accepted) in Hacc
    by (intros c; now rewrite accepted_alphabet).
  destruct (encodeAlphanumeric_holds data Hacc Hn) as (b & Eb & Hl & Hwf & Hbit & Hc & Hbits).
  exists b. split; [exact Eb|]. split; [exact Hl|]. split; [exact Hbit|].
  split; [|exact Hbits].
  rewrite segmentBits_length, list_ascii_length in Hc.
  unfold cursor in Hc. lia.
Qed.

Lemma encodeAlphanumeric_segment_witness :
  exists b,
    encodeAlphanumeric "AC-42" 1 Level.M = Ok b
    /\ length b = 16
    /\ bitPointer b = 0
    /\ 8 * bytePointer b = 8 * ((17 + 11 * (5 / 2) + 6 * (5 mod 2) + 7) / 8)
    /\ forall k : nat,
         bitAt (buffer b) (Z.of_nat k)
         = default false (segmentBits (list_ascii_of_string "AC-42") !! k).
Proof.
  apply (encodeAlphanumeric_segment "AC-42").
  - vm_compute. reflexivity.
  - vm_compute. lia.
Defined.

Lemma fill_aligned (b : BitBuffer) :
  0 <= bytePointer b <= length b -> bitPointer b = 0 ->
  fill b = {| buffer := take (Z.to_nat (bytePointer b)) (buffer b)
                          ++ padCodewords (Z.to_nat (length b - bytePointer b));
              bytePointer := length b;
              bitPointer := 0 |}.
Proof.
  intros Hbp Hbit. unfold fill, padByte. rewrite Hbit.
  change (0 <? 0) with false. cbv iota.
  rewrite (fillLoop_exact _ 0%nat b) by lia.
  now rewrite Hbit.
Qed.

Lemma bitAt_prefix (a a' : list Z) (m : nat) (k : Z) :
  0 <= k < 8 * Z.of_nat m -> (m <= List.length a)%nat ->
  bitAt (take m a ++ a') k = bitAt a k.
Proof.
  intros Hk Hm. unfold bitAt, get.
  assert (0 <= k / 8 < Z.of_nat m)
    by (split; [apply Z.div_pos; lia | apply Z.div_lt_upper_bound; lia]).
  destruct (Z.leb_spec 0 (k / 8)); [|lia].
  rewrite lookup_app_l by (rewrite length_take; lia).
  now rewrite lookup_take_lt by lia.
Qed.

(** X20: for such a text, [encode] returns the 16-byte codeword sequence
    of the symbol: the bytes that carry the bits of the segment, then the
    pad codewords 0xEC, 0x11, ... up to the capacity. *)
Theorem encode_codewords (data : string) (qrType : QRCodeType) :
  forallb (fun c => inAlphabet c && negb (Ascii.eqb c "0")) (list_ascii_of_string data) = true ->
  (String.length data <= 20)%nat ->
  let used := (17 + 11 * (Z.of_nat (String.length data) / 2)
               + 6 * (Z.of_nat (String.length data) mod 2) + 7) / 8 in
  exists b,
    encode data alphanumeric qrType = Ok b
    /\ length b = 16 /\ bytePointer b = 16 /\ bitPointer b = 0
    /\ toArray b = buffer b
    /\ drop (Z.to_nat used) (buffer b) = padCodewords (Z.to_nat (16 - used))
    /\ forall k : nat, Z.of_nat k < 8 * used ->
         bitAt (buffer b) (Z.of_nat k)
         = default false (segmentBits (list_ascii_of_string data) !! k).
Proof.
  intros Hacc Hn used.
  rewrite (forallb_pointwise _ accepted) in Hacc
    by (intros c; now rewrite accepted_alphabet).
  destruct (encodeAlphanumeric_holds data Hacc Hn)
    as (e & Ee & Hl & [Hbp _] & Hbit & Hc & Hbits).
  rewrite segmentBits_length, list_ascii_length in Hc. fold used in Hc.
  assert (Hused : bytePointer e = used) by (unfold cursor in Hc; lia).
  assert (Hu16 : 0 <= used <= 16).
  { subst used.
    pose proof (Z.div_mod (Z.of_nat (String.length data)) 2 ltac:(lia)).
    pose proof (Z.mod_pos_bound (Z.of_nat (String.length data)) 2 ltac:(lia)).
    split; [apply Z.div_pos; lia|].
    apply Z.lt_succ_r. apply Z.div_lt_upper_bound; lia. }
  unfold encode. rewrite Ee. cbn [bind].
  rewrite (fill_aligned e) by lia.
  rewrite Hl, Hused.
  assert (Hlen : List.length (buffer e) = 16%nat) by (unfold length in Hl; lia).
  eexists. split; [reflexivity|].
  cbn [buffer bytePointer bitPointer].
  split.
  { unfold length. cbn [buffer].
    rewrite length_app, length_take. unfold padCodewords, padFrom.
    rewrite List.length_map, List.length_seq. lia. }
  split; [reflexivity|]. split; [reflexivity|].
  split.
  { unfold toArray. cbn [buffer bytePointer bitPointer].
    change (0 <? 0) with false. cbv iota.
    apply take_ge. rewrite length_app, length_take. unfold padCodewords, padFrom.
    rewrite List.length_map, List.length_seq. lia. }
  split.
  { rewrite drop_app_length'; [reflexivity|]. rewrite length_take. lia. }
  intros k Hk.
  rewrite bitAt_prefix by lia. apply Hbits.
Qed.

Lemma encode_codewords_witness :
  exists b,
    encode "AC-42" alphanumeric {| qrVersion := 1; qrLevel := Level.M |} = Ok b
    /\ length b = 16 /\ bytePointer b = 16 /\ bitPointer b = 0
    /\ toArray b = buffer b
    /\ drop 6 (buffer b) = padCodewords 10
    /\ forall k : nat, Z.of_nat k < 8 * 6 ->
         bitAt (buffer b) (Z.of_nat k)
         = default false (segmentBits (list_ascii_of_string "AC-42") !! k).
Proof.
  apply (encode_codewords "AC-42" {| qrVersion := 1; qrLevel := Level.M |}).
  - vm_compute. reflexivity.
  - vm_compute. lia.
Defined.

End Segment.
